(** * RRT Architect: puzzle generation engine and adaptive-difficulty loop

    Shallow embedding of the logic of [src/src/App.tsx]:
    - [invertSpatial], [getDistinctRandomIndices], [shuffleArray],
      [generateCipherKey], [generateLogic] (one function per relational
      frame, dispatched as in the source) and the adaptive part of
      [handleAnswer].

    Randomness.  Every [Math.random()] call is one draw from an explicit
    list of draws; a draw [r] stands for the double [r / 2^53] (V8 and
    the other engines return multiples of [2^-53] in [0,1)).  So
    [Math.floor(Math.random() * k)] is [(r * k) / 2^53] and
    [Math.random() > 0.5] is [r > 2^52].  The generator runs in a small
    state-and-failure monad over the remaining draws; running out of draws
    is a failure ([None]), so a [while] loop that redraws until a
    condition holds is modelled exactly: it either stops or uses up the
    draws.

    Presentation.  The HTML text of premises and questions (and the cipher
    substitution done by [getTerm]/[createPremise]) is not modelled: a
    premise is the triple (left item index, canonical keyword, right item
    index) and a question the indices and keyword it is built from. *)

From Stdlib Require Import ZArith Lia Ascii String Factorial.
From stdpp Require Import base list gmap strings.

Open Scope Z_scope.

(** ** Draws and the generator monad *)

Definition M (A : Type) : Type := list Z -> option (A * list Z).

Definition retM {A} (x : A) : M A := fun ds => Some (x, ds).

Definition bindM {A B} (m : M A) (k : A -> M B) : M B :=
  fun ds => match m ds with
            | Some (x, ds') => k x ds'
            | None => None
            end.

Notation "'let*' x ':=' m 'in' k" := (bindM m (fun x => k))
  (at level 200, x name, m at level 100, k at level 200).

Definition two53 : Z := 2 ^ 53.

(** [Math.random()], as the integer [r] with value [r / 2^53]. *)
Definition random : M Z :=
  fun ds => match ds with
            | [] => None
            | r :: ds' => Some (r mod two53, ds')
            end.

(** [Math.floor(Math.random() * k)] *)
Definition rand_below (k : nat) : M nat :=
  let* r := random in retM (Z.to_nat ((r * Z.of_nat k) / two53)).

(** [Math.random() > 0.5] *)
Definition coin_gt_half : M bool :=
  let* r := random in retM (Z.gtb r (two53 / 2)).

(** [Math.random() < 0.5] *)
Definition coin_lt_half : M bool :=
  let* r := random in retM (Z.ltb r (two53 / 2)).

(** [while (cond(x)) x = draw;], with the fuel sized by the remaining draws:
    each iteration consumes at least one draw. *)
Fixpoint redraw_while {A} (fuel : nat) (cond : A -> bool) (draw : M A) (x : A) : M A :=
  match fuel with
  | O => fun _ => None
  | S f => if cond x then bindM draw (redraw_while f cond draw) else retM x
  end.

Definition while_redraw {A} (cond : A -> bool) (draw : M A) (x : A) : M A :=
  fun ds => redraw_while (S (length ds)) cond draw x ds.

(** ** Strings: [includes], [split] and [join] on the separator " and " *)

Definition and_sep : string := " and ".

Fixpoint is_prefix (p s : list Ascii.ascii) : bool :=
  match p, s with
  | [], _ => true
  | _ :: _, [] => false
  | a :: p', b :: s' => if Ascii.ascii_dec a b then is_prefix p' s' else false
  end.

Fixpoint includes_l (sep s : list Ascii.ascii) : bool :=
  is_prefix sep s || match s with [] => false | _ :: s' => includes_l sep s' end.

(** [s.includes(sep)] *)
Definition includes (s sep : string) : bool :=
  includes_l (list_ascii_of_string sep) (list_ascii_of_string s).

Fixpoint split_go (fuel : nat) (sep s cur : list Ascii.ascii) : list (list Ascii.ascii) :=
  match fuel with
  | O => [cur]
  | S f =>
      match s with
      | [] => [cur]
      | c :: s' =>
          if is_prefix sep s then cur :: split_go f sep (drop (length sep) s) []
          else split_go f sep s' (cur ++ [c])
      end
  end.

(** [s.split(sep)] for a non-empty separator: cut at every occurrence,
    scanning left to right. *)
Definition split (s sep : string) : list string :=
  let l := list_ascii_of_string s in
  map string_of_list_ascii (split_go (S (length l)) (list_ascii_of_string sep) l []).

(** [parts.join(sep)] *)
Fixpoint join (parts : list string) (sep : string) : string :=
  match parts with
  | [] => ""
  | [p] => p
  | p :: ps => String.append p (String.append sep (join ps sep))
  end.

(** ** [invertSpatial] *)

(** The object literal [map] of [invertSpatial]; [map[p]] is [None] where
    the literal has no such key (members inherited from [Object.prototype]
    are not modelled: the code only looks up direction words). *)
Definition invert_map (p : string) : option string :=
  if String.eqb p "NORTH" then Some "SOUTH"
  else if String.eqb p "SOUTH" then Some "NORTH"
  else if String.eqb p "EAST" then Some "WEST"
  else if String.eqb p "WEST" then Some "EAST"
  else if String.eqb p "ABOVE" then Some "BELOW"
  else if String.eqb p "BELOW" then Some "ABOVE"
  else if String.eqb p "LEFT" then Some "RIGHT"
  else if String.eqb p "RIGHT" then Some "LEFT"
  else if String.eqb p "FRONT" then Some "BEHIND"
  else if String.eqb p "BEHIND" then Some "FRONT"
  else if String.eqb p "SAME LOCATION" then Some "SAME LOCATION"
  else None.

(** [map[p] || p] *)
Definition lookup_or_self (p : string) : string :=
  match invert_map p with Some q => q | None => p end.

Definition invertSpatial (rel : string) : string :=
  if includes rel and_sep then join (map lookup_or_self (split rel and_sep)) and_sep
  else lookup_or_self rel.

Example invertSpatial_ex1 : invertSpatial "NORTH and WEST" = "SOUTH and EAST".
Proof. reflexivity. Qed.
Example invertSpatial_ex2 : invertSpatial "SAME LOCATION" = "SAME LOCATION".
Proof. reflexivity. Qed.

(** ** Data model *)

Inductive RftMode := LINEAR | SPATIAL_2D | SPATIAL_3D | HIERARCHY | DISTINCTION.
Inductive SymbolMode := EMOJI | WORDS | VORONOI | MIXED.

Record GameSettings := mkSettings {
  activeModes : RftMode -> bool;
  numPremises : Z;
  autoProgress : bool;
  useQuestionTimer : bool;
  questionTimeLimit : Z;
  sessionLengthMinutes : Z;
  disableSessionTimer : bool;
  blindMode : bool;
  symbolMode : SymbolMode;
  enableDeictic : bool;
  enableTransformation : bool;
  enableInterference : bool;
  enableCipher : bool;
  enableMovement : bool
}.

(** A premise [items[a] rel items[b]], by item index. *)
Record Premise := mkPremise { p_left : nat; p_rel : string; p_right : nat }.

(** The movement instructions after "START item. FACE heading." *)
Inductive Instr := WALK | TURN_RIGHT | TURN_LEFT.

(** The question, by the item indices and canonical keywords it is built from. *)
Inductive Question :=
  (** [Is items[a] kw items[b]?] (and Hierarchy's [Does items[a] CONTAINS items[b]?]) *)
  | Q_rel (a : nat) (kw : string) (b : nat)
  (** [You are at items[me] facing F. Is items[target] to your kw?] *)
  | Q_deictic (me : nat) (facing : string) (target : nat) (kw : string)
  (** [START items[start]. FACE heading. instrs. Is items[target] to your kw?] *)
  | Q_move (start : nat) (heading : nat) (instrs : list Instr) (target : nat) (kw : string).

Record Pos := mkPos { x : Z; y : Z; z : Z }.

Definition origin : Pos := mkPos 0 0 0.

(** The object returned by [generateLogic] ([usedCipherKeys] is presentation
    only and left out; [visualMap] keeps the positions, node [i] for item [i]). *)
Record Round := mkRound {
  premises : list Premise;
  question : Question;
  answer : bool;
  modifiers : list string;
  visualMap : list Pos
}.

(** [positions[i]]: the code only reads indices below [items.length]. *)
Definition pos_at (positions : list Pos) (i : nat) : Pos := nth i positions origin.

(** [arr[k]] for a draw [k] below [arr.length] ([""] stands for [undefined]). *)
Definition str_at (arr : list string) (k : nat) : string := nth k arr "".

(** ** Geometry shared by the Deictic and Movement sub-modes *)

(** Deictic: [facingDir] 0..3 = N, E, S, W. *)
Definition deictic_rotate (facingDir : nat) (diffX diffY : Z) : Z * Z :=
  match facingDir with
  | 0%nat => (diffX, diffY)
  | 1%nat => (- diffY, diffX)
  | 2%nat => (- diffX, - diffY)
  | 3%nat => (diffY, - diffX)
  | _ => (0, 0)
  end.

(** Movement: [heading] 0..3 = N, E, S, W. *)
Definition movement_rotate (heading : nat) (relX relY : Z) : Z * Z :=
  match heading with
  | 0%nat => (relX, relY)
  | 1%nat => (relY, - relX)
  | 2%nat => (- relX, - relY)
  | 3%nat => (- relY, relX)
  | _ => (0, 0)
  end.

(** The forward-dominance rule, written identically in both sub-modes. *)
Definition classify_local (localX localY : Z) : string :=
  if (0 <? localY) && (Z.abs localX <=? localY) then "FRONT"
  else if (localY <? 0) && (Z.abs localX <=? Z.abs localY) then "BEHIND"
  else if 0 <? localX then "RIGHT"
  else if localX <? 0 then "LEFT"
  else "SAME LOCATION".

Definition headingNames : list string := ["NORTH"; "EAST"; "SOUTH"; "WEST"].
Definition possibleDirs : list string := ["FRONT"; "BEHIND"; "LEFT"; "RIGHT"].

(** One walker step: [if (heading === 0) curY++; else if ... ] *)
Definition walk (heading : nat) (cur : Z * Z) : Z * Z :=
  let '(cx, cy) := cur in
  match heading with
  | 0%nat => (cx, cy + 1)
  | 1%nat => (cx + 1, cy)
  | 2%nat => (cx, cy - 1)
  | 3%nat => (cx - 1, cy)
  | _ => (cx, cy)
  end.

(** The Standard sub-mode's true relation parts for a displacement. *)
Definition spatial_parts (is3D : bool) (diffX diffY diffZ : Z) : list string :=
  (if is3D then (if 0 <? diffZ then ["ABOVE"] else if diffZ <? 0 then ["BELOW"] else [])
   else [])
  ++ (if 0 <? diffY then ["NORTH"] else if diffY <? 0 then ["SOUTH"] else [])
  ++ (if 0 <? diffX then ["EAST"] else if diffX <? 0 then ["WEST"] else []).

Definition str_mem (s : string) (l : list string) : bool := existsb (String.eqb s) l.

(** ** The generators *)

Section Generators.

(** [Array.prototype.sort(comparefn)]: the engine's algorithm, left open by
    ECMAScript (the comparator is an effectful callback here). *)
Variable array_sort : forall A : Type, (A -> A -> M Z) -> list A -> M (list A).

(** [generateSymbols(count, mode)]: display tokens only, never inspected by
    the logic; what matters to the model is the draws it consumes. *)
Variable generateSymbols : nat -> SymbolMode -> M (list string).

(** [[...array].sort(() => Math.random() - 0.5)]; the comparator value is
    kept scaled by [2^53], which keeps its sign. *)
Definition shuffleArray {A} (l : list A) : M (list A) :=
  array_sort A (fun _ _ => let* r := random in retM (r - two53 / 2)) l.

Definition getDistinctRandomIndices (count : nat) : M (nat * nat) :=
  let* a := rand_below count in
  let* b := rand_below count in
  let* b := while_redraw (fun b => Nat.eqb a b) (rand_below count) b in
  retM (a, b).

(** *** LINEAR *)

Fixpoint linear_links (i k : nat) : M (list Premise) :=
  match k with
  | O => retM []
  | S k' =>
      let* g := coin_gt_half in
      let rel := if g then "GREATER" else "LESS" in
      let* rest := linear_links (S i) k' in
      retM (mkPremise i rel (S i) :: rest)
  end.

Definition linear_answer (qType : string) (idxA idxB : nat) : bool :=
  if String.eqb qType "GREATER" then Nat.ltb idxA idxB else Nat.ltb idxB idxA.

Definition generateLinear (s : GameSettings) (num : nat) (isNight : bool)
  : M (list Premise * Question * bool) :=
  let* _items := generateSymbols (S num) (symbolMode s) in
  let* prems := linear_links 0 num in
  let* ab := getDistinctRandomIndices (S num) in
  let '(idxA, idxB) := ab in
  let* q := coin_gt_half in
  let qType := if q then "GREATER" else "LESS" in
  let newAnswer := linear_answer qType idxA idxB in
  retM (prems, Q_rel idxA qType idxB, if isNight then negb newAnswer else newAnswer).

(** *** DISTINCTION *)

(** [values.push(isSame ? values[i] : 1 - values[i])], with [values] of
    length [i + 1] on entry. *)
Fixpoint distinction_links (i k : nat) (values : list Z) : M (list Z * list Premise) :=
  match k with
  | O => retM (values, [])
  | S k' =>
      let* isSame := coin_gt_half in
      let vi := nth i values 0 in
      let values' := values ++ [if isSame then vi else 1 - vi] in
      let rel := if isSame then "SAME" else "DIFFERENT" in
      let* rest := distinction_links (S i) k' values' in
      let '(vs, ps) := rest in
      retM (vs, mkPremise i rel (S i) :: ps)
  end.

Definition distinction_answer (values : list Z) (qType : string) (idxA idxB : nat) : bool :=
  if String.eqb qType "SAME" then Z.eqb (nth idxA values 0) (nth idxB values 0)
  else negb (Z.eqb (nth idxA values 0) (nth idxB values 0)).

Definition generateDistinction (s : GameSettings) (num : nat) (isNight : bool)
  : M (list Premise * Question * bool) :=
  let* _items := generateSymbols (S num) (symbolMode s) in
  let* v0 := coin_gt_half in
  let* chain := distinction_links 0 num [if v0 then 1 else 0] in
  let '(values, prems) := chain in
  let* ab := getDistinctRandomIndices (S num) in
  let '(idxA, idxB) := ab in
  let* q := coin_gt_half in
  let qType := if q then "SAME" else "DIFFERENT" in
  let newAnswer := distinction_answer values qType idxA idxB in
  retM (prems, Q_rel idxA qType idxB, if isNight then negb newAnswer else newAnswer).

(** *** HIERARCHY *)

Definition hierarchy_premises (num : nat) : list Premise :=
  map (fun i => mkPremise i "CONTAINS" (S i)) (seq 0 num).

Definition generateHierarchy (s : GameSettings) (num : nat) (isNight : bool)
  : M (list Premise * Question * bool) :=
  let* _items := generateSymbols (S num) (symbolMode s) in
  let prems := hierarchy_premises num in
  let* ab := getDistinctRandomIndices (S num) in
  let '(idxA, idxB) := ab in
  let* inside := coin_gt_half in
  let '(q, newAnswer) :=
    if inside then (Q_rel idxA "INSIDE" idxB, Nat.ltb idxB idxA)
    else (Q_rel idxA "CONTAINS" idxB, Nat.ltb idxA idxB) in
  retM (prems, q, if isNight then negb newAnswer else newAnswer).

(** *** SPATIAL_2D / SPATIAL_3D *)

(** The [switch (dir)] of the lattice walk: (dx, dy, dz, text). *)
Definition dir_step (dir : nat) : Z * Z * Z * string :=
  match dir with
  | 0%nat => (0, 1, 0, "NORTH")
  | 1%nat => (0, -1, 0, "SOUTH")
  | 2%nat => (1, 0, 0, "EAST")
  | 3%nat => (-1, 0, 0, "WEST")
  | 4%nat => (0, 0, 1, "ABOVE")
  | 5%nat => (0, 0, -1, "BELOW")
  | _ => (0, 0, 0, "")
  end.

(** The loop [for (let i = 0; i < num; i++)]: premise
    [items[i+1] text items[i]] and the position of item [i+1]. *)
Fixpoint spatial_walk (is3D : bool) (i k : nat) (cur : Pos) : M (list Premise * list Pos) :=
  match k with
  | O => retM ([], [])
  | S k' =>
      let* dir := rand_below (if is3D then 6 else 4) in
      let '(dx, dy, dz, text) := dir_step dir in
      let cur' := mkPos (x cur + dx) (y cur + dy) (z cur + dz) in
      let* rest := spatial_walk is3D (S i) k' cur' in
      let '(ps, poss) := rest in
      retM (mkPremise (S i) text i :: ps, cur' :: poss)
  end.

Definition availableTypes (s : GameSettings) (is3D : bool) : list string :=
  let ts := ["STANDARD"] ++ (if enableDeictic s then ["DEICTIC"] else [])
            ++ (if enableMovement s && negb is3D then ["MOVEMENT"] else []) in
  if Nat.ltb 1 (length ts) then filter (fun t => negb (String.eqb t "STANDARD")) ts else ts.

Definition selectSpatialType (s : GameSettings) (is3D : bool) : M string :=
  let ts := availableTypes s is3D in
  let* k := rand_below (length ts) in
  retM (str_at ts k).

Definition ask_bearing (isNight : bool) (trueRel : string) : M (string * bool) :=
  let effectiveRel := if isNight then invertSpatial trueRel else trueRel in
  let* t := coin_gt_half in
  if t then retM (effectiveRel, true)
  else
    let draw := let* k := rand_below 4 in retM (str_at possibleDirs k) in
    let* fake := draw in
    let* fake := while_redraw (fun f => String.eqb f effectiveRel) draw fake in
    retM (fake, false).

Definition deictic_branch (positions : list Pos) (count : nat) (isNight : bool)
  : M (Question * bool) :=
  let* mt := getDistinctRandomIndices count in
  let '(idxMe, idxTarget) := mt in
  let diffX := x (pos_at positions idxTarget) - x (pos_at positions idxMe) in
  let diffY := y (pos_at positions idxTarget) - y (pos_at positions idxMe) in
  let* facingDir := rand_below 4 in
  let myFacing := str_at headingNames facingDir in
  let '(localX, localY) := deictic_rotate facingDir diffX diffY in
  let* qa := ask_bearing isNight (classify_local localX localY) in
  let '(kw, ans) := qa in
  retM (Q_deictic idxMe myFacing idxTarget kw, ans).

Fixpoint movement_moves (m : nat) (cur : Z * Z) (heading : nat)
  : M ((Z * Z) * nat * list Instr) :=
  match m with
  | O => retM (cur, heading, [])
  | S m' =>
      let* w := coin_lt_half in
      if w then
        let* rest := movement_moves m' (walk heading cur) heading in
        let '(fin, instrs) := rest in retM (fin, WALK :: instrs)
      else
        let* r := coin_gt_half in
        if r then
          let* rest := movement_moves m' cur ((heading + 1) mod 4) in
          let '(fin, instrs) := rest in retM (fin, TURN_RIGHT :: instrs)
        else
          let* rest := movement_moves m' cur ((heading + 3) mod 4) in
          let '(fin, instrs) := rest in retM (fin, TURN_LEFT :: instrs)
  end.

(** [while ((targetIdx === startIdx || same position) && attempts < 50)];
    [fuel] is [50 - attempts]. *)
Fixpoint target_retry (fuel : nat) (positions : list Pos) (count startIdx : nat)
  (cur : Z * Z) (t : nat) : M nat :=
  match fuel with
  | O => retM t
  | S f =>
      if Nat.eqb t startIdx
         || (Z.eqb (x (pos_at positions t)) cur.1 && Z.eqb (y (pos_at positions t)) cur.2)
      then let* t' := rand_below count in target_retry f positions count startIdx cur t'
      else retM t
  end.

Definition movement_branch (positions : list Pos) (count : nat) (isNight : bool)
  : M (Question * bool) :=
  let* startIdx := rand_below count in
  let start := (x (pos_at positions startIdx), y (pos_at positions startIdx)) in
  let* heading0 := rand_below 4 in
  let* mv := rand_below 2 in
  let* sim := movement_moves (2 + mv) start heading0 in
  let '(fin, heading, instrs) := sim in
  let* t := rand_below count in
  let* targetIdx := target_retry 50 positions count startIdx fin t in
  let relX := x (pos_at positions targetIdx) - fin.1 in
  let relY := y (pos_at positions targetIdx) - fin.2 in
  let '(localX, localY) := movement_rotate heading relX relY in
  let* qa := ask_bearing isNight (classify_local localX localY) in
  let '(kw, ans) := qa in
  retM (Q_move startIdx heading0 instrs targetIdx kw, ans).

Definition allDirs (is3D : bool) : list string :=
  if is3D then ["NORTH"; "SOUTH"; "EAST"; "WEST"; "ABOVE"; "BELOW"]
  else ["NORTH"; "SOUTH"; "EAST"; "WEST"].

Definition standard_branch (is3D : bool) (positions : list Pos) (count : nat) (isNight : bool)
  : M (Question * bool) :=
  let* ab := getDistinctRandomIndices count in
  let '(idxA, idxB) := ab in
  let pa := pos_at positions idxA in
  let pb := pos_at positions idxB in
  let parts := spatial_parts is3D (x pb - x pa) (y pb - y pa) (z pb - z pa) in
  let effectiveParts := if isNight then map invertSpatial parts else parts in
  let dirs := allDirs is3D in
  (* [effectiveParts.length > 0 && Math.random() > 0.5]: no draw when empty *)
  let* askTrue := (if Nat.ltb 0 (length effectiveParts) then coin_gt_half else retM false) in
  if askTrue then
    let* k := rand_below (length effectiveParts) in
    retM (Q_rel idxB (str_at effectiveParts k) idxA, true)
  else
    let draw := let* k := rand_below (length dirs) in retM (str_at dirs k) in
    let* fake := draw in
    let* fake := while_redraw (fun f => str_mem f effectiveParts) draw fake in
    retM (Q_rel idxB fake idxA, false).

Definition generateSpatial (s : GameSettings) (is3D : bool) (num : nat) (isNight : bool)
  : M (list Premise * list Pos * string * Question * bool) :=
  let* _items := generateSymbols (S num) (symbolMode s) in
  let* walkres := spatial_walk is3D 0 num origin in
  let '(prems, poss) := walkres in
  let positions := origin :: poss in
  let* selectedType := selectSpatialType s is3D in
  let* qa :=
    (if String.eqb selectedType "DEICTIC" then deictic_branch positions (S num) isNight
     else if String.eqb selectedType "MOVEMENT" then movement_branch positions (S num) isNight
     else standard_branch is3D positions (S num) isNight) in
  let '(q, ans) := qa in
  retM (prems, positions, selectedType, q, ans).

(** [generateLogic(mode, num, cipherMap, isNight)]; the cipher map only
    changes the rendered text. *)
Definition generateLogic (s : GameSettings) (mode : RftMode) (num : nat) (isNight : bool)
  : M Round :=
  let* built :=
    (match mode with
     | LINEAR => let* r := generateLinear s num isNight in
                 let '(ps, q, a) := r in retM (ps, q, a, @nil string, @nil Pos)
     | DISTINCTION => let* r := generateDistinction s num isNight in
                      let '(ps, q, a) := r in retM (ps, q, a, @nil string, @nil Pos)
     | HIERARCHY => let* r := generateHierarchy s num isNight in
                    let '(ps, q, a) := r in retM (ps, q, a, @nil string, @nil Pos)
     | SPATIAL_2D | SPATIAL_3D =>
         let is3D := match mode with SPATIAL_3D => true | _ => false end in
         let* r := generateSpatial s is3D num isNight in
         let '(ps, positions, t, q, a) := r in
         let mods := if String.eqb t "DEICTIC" then ["DEICTIC"]
                     else if String.eqb t "MOVEMENT" then ["MOVEMENT"] else [] in
         retM (ps, q, a, mods, positions)
     end) in
  let '(newPremises, q, a, mods, vis) := built in
  let* shuffled := shuffleArray newPremises in
  retM (mkRound shuffled q a mods vis).

End Generators.

(** ** The cipher key: [generateCipherKey] *)

Definition relations : list string :=
  ["GREATER"; "LESS"; "SAME"; "DIFFERENT"; "CONTAINS"; "INSIDE";
   "NORTH"; "SOUTH"; "EAST"; "WEST"; "ABOVE"; "BELOW";
   "LEFT"; "RIGHT"; "FRONT"; "BEHIND"; "START"; "FACE"; "WALK"; "TURN"].

Definition CIPHER_WORDS : list string :=
  ["ZAX"; "JOP"; "KIV"; "LUZ"; "MEC"; "VEX"; "QOD"; "WIB"; "HAF"; "GUK";
   "YIN"; "BEX"; "DUB"; "ROZ"; "NIX"; "POK"; "VOM"; "JEX"; "KAZ"; "QUZ";
   "YEP"; "WUX"; "FIP"; "GOZ"].

(** [relations.forEach((rel, i) => { newMap[rel] = shuffledWords[i % len]; })];
    a value is [None] where the index read is [undefined]. *)
Definition fill_cipher (shuffledWords : list string) : gmap string (option string) :=
  foldl (fun m (ir : nat * string) =>
           <[ir.2 := shuffledWords !! Nat.modulo ir.1 (length shuffledWords)]> m)
        ∅ (zip (seq 0 (length relations)) relations).

Definition generateCipherKey
  (array_sort : forall A : Type, (A -> A -> M Z) -> list A -> M (list A))
  : M (gmap string (option string)) :=
  let* shuffledWords := shuffleArray array_sort CIPHER_WORDS in
  retM (fill_cipher shuffledWords).

(** ** Adaptive difficulty: the streak part of [handleAnswer] *)

(** [settings.numPremises], [progressCount], [mistakeCount]. *)
Record Session := mkSession { depth : Z; progressCount : Z; mistakeCount : Z }.

(** [startSession] resets both streaks. *)
Definition startSession (d0 : Z) : Session := mkSession d0 0 0.

(** The counters after an answer; [correct] is [userAnswer === expected]
    (a timeout, [null], is never correct). *)
Definition adapt (autoProgress : bool) (s : Session) (correct : bool) : Session :=
  if correct then
    let s := mkSession (depth s) (progressCount s) 0 in
    if autoProgress then
      if 2 <=? progressCount s then mkSession (depth s + 1) 0 (mistakeCount s)
      else mkSession (depth s) (progressCount s + 1) (mistakeCount s)
    else s
  else
    let s := mkSession (depth s) 0 (mistakeCount s) in
    if autoProgress && (2 <? depth s) then
      if 1 <=? mistakeCount s then mkSession (depth s - 1) (progressCount s) 0
      else mkSession (depth s) (progressCount s) (mistakeCount s + 1)
    else s.

Definition handleAnswer (autoProgress : bool) (s : Session)
  (userAnswer : option bool) (expected : bool) : Session :=
  adapt autoProgress s (match userAnswer with Some b => Bool.eqb b expected | None => false end).

(** A session's history, most recent answer first: (correct, depth changed). *)
Definition Event : Type := bool * bool.

Fixpoint run (autoProgress : bool) (s : Session) (answers : list bool) (evs : list Event)
  : Session * list Event :=
  match answers with
  | [] => (s, evs)
  | a :: rest =>
      let s' := adapt autoProgress s a in
      run autoProgress s' rest ((a, negb (Z.eqb (depth s') (depth s))) :: evs)
  end.

(** Number of answers equal to [b] since the last depth change (or the
    session start), counting back from the most recent one. *)
Fixpoint run_since (b : bool) (evs : list Event) : nat :=
  match evs with
  | [] => O
  | (a, changed) :: evs' => if Bool.eqb a b && negb changed then S (run_since b evs') else O
  end.

(** ** Concrete engines, for evaluating the model on examples *)

Fixpoint insertM {A} (cmp : A -> A -> M Z) (a : A) (l : list A) : M (list A) :=
  match l with
  | [] => retM [a]
  | b :: l' =>
      let* c := cmp a b in
      if c <? 0 then retM (a :: b :: l')
      else let* r := insertM cmp a l' in retM (b :: r)
  end.

(** An insertion sort calling the comparator once per comparison. *)
Fixpoint insertion_sort (A : Type) (cmp : A -> A -> M Z) (l : list A) : M (list A) :=
  match l with
  | [] => retM []
  | a :: l' => let* s := insertion_sort A cmp l' in insertM cmp a s
  end.

Definition plain_symbols (n : nat) (_ : SymbolMode) : M (list string) := retM (repeat "" n).

Definition settings0 : GameSettings :=
  mkSettings (fun _ => true) 2 true true 15 5 false false EMOJI false false false false false.

(** * Proofs *)

(** ** Running the monad backwards *)

Lemma bindM_Some {A B} (m : M A) (k : A -> M B) ds r :
  bindM m k ds = Some r -> exists v ds1, m ds = Some (v, ds1) /\ k v ds1 = Some r.
Proof.
  unfold bindM. destruct (m ds) as [[v ds1]|] eqn:E; [|discriminate].
  intros H. exists v, ds1. auto.
Qed.

Lemma retM_Some {A} (v : A) ds r : retM v ds = Some r -> r = (v, ds).
Proof. unfold retM. congruence. Qed.

(** Peel one [let*] off a hypothesis [bindM m k ds = Some r]. *)
Ltac peel H :=
  let v := fresh "v" in let ds := fresh "ds" in let Hm := fresh "Hm" in
  apply bindM_Some in H; destruct H as (v & ds & Hm & H); cbv beta in H.

Ltac peel_as H v Hm :=
  let ds := fresh "ds" in
  apply bindM_Some in H; destruct H as (v & ds & Hm & H); cbv beta in H.

Lemma random_range ds v ds1 : random ds = Some (v, ds1) -> 0 <= v < two53.
Proof.
  unfold random. destruct ds as [|r ds]; [discriminate|].
  intros H; inversion H; subst. apply Z.mod_pos_bound. unfold two53. lia.
Qed.

Lemma rand_below_range k ds n ds1 :
  rand_below k ds = Some (n, ds1) -> (0 < k)%nat -> (n < k)%nat.
Proof.
  unfold rand_below. intros H Hpos. peel H. apply retM_Some in H. inversion H; subst.
  apply random_range in Hm. unfold two53 in *.
  assert (Hlt : (v * Z.of_nat k) / 2 ^ 53 < Z.of_nat k).
  { apply Z.div_lt_upper_bound; nia. }
  assert (Hge : 0 <= (v * Z.of_nat k) / 2 ^ 53) by (apply Z.div_pos; lia).
  lia.
Qed.

Lemma redraw_while_exit {A} f (cond : A -> bool) (draw : M A) v ds w ds1 :
  redraw_while f cond draw v ds = Some (w, ds1) -> cond w = false.
Proof.
  revert v ds. induction f as [|f IH]; intros v ds H; simpl in H; [discriminate|].
  destruct (cond v) eqn:Hc.
  - peel H. eauto.
  - apply retM_Some in H. inversion H; subst. exact Hc.
Qed.

Lemma while_redraw_exit {A} (cond : A -> bool) (draw : M A) v ds w ds1 :
  while_redraw cond draw v ds = Some (w, ds1) -> cond w = false.
Proof. apply redraw_while_exit. Qed.

(** [while_redraw] returns either its start value or a value of [draw]. *)
Lemma redraw_while_from {A} f (cond : A -> bool) (draw : M A) (P : A -> Prop) v ds w ds1 :
  P v -> (forall d d' u, draw d = Some (u, d') -> P u) ->
  redraw_while f cond draw v ds = Some (w, ds1) -> P w.
Proof.
  revert v ds. induction f as [|f IH]; intros v ds Hv Hd H; simpl in H; [discriminate|].
  destruct (cond v).
  - peel H. eapply IH; [eapply Hd; exact Hm | exact Hd | exact H].
  - apply retM_Some in H. inversion H; subst. exact Hv.
Qed.

Lemma while_redraw_from {A} (cond : A -> bool) (draw : M A) (P : A -> Prop) v ds w ds1 :
  P v -> (forall d d' u, draw d = Some (u, d') -> P u) ->
  while_redraw cond draw v ds = Some (w, ds1) -> P w.
Proof. apply redraw_while_from. Qed.

Section Engine.
Variable array_sort : forall A : Type, (A -> A -> M Z) -> list A -> M (list A).

Lemma getDistinct_spec count ds a b ds1 :
  getDistinctRandomIndices count ds = Some ((a, b), ds1) ->
  (0 < count)%nat -> a <> b /\ (a < count)%nat /\ (b < count)%nat.
Proof.
  unfold getDistinctRandomIndices. intros H Hc.
  peel H. peel H. peel H. apply retM_Some in H.
  injection H as Ha Hb _. subst a b.
  apply rand_below_range in Hm; [|exact Hc].
  pose proof (while_redraw_exit _ _ _ _ _ _ Hm1) as Hne.
  apply Nat.eqb_neq in Hne.
  assert (v1 < count)%nat.
  { eapply (while_redraw_from _ _ (fun u => u < count)%nat); [| |exact Hm1].
    - eapply rand_below_range; eauto.
    - intros d d' u Hd. eapply rand_below_range; eauto. }
  repeat split; auto.
Qed.

End Engine.

(** ** [invertSpatial] on relation strings *)

(** The words [invertSpatial] handles. *)
Definition dir_words : list string :=
  ["NORTH"; "SOUTH"; "EAST"; "WEST"; "ABOVE"; "BELOW";
   "LEFT"; "RIGHT"; "FRONT"; "BEHIND"; "SAME LOCATION"].

(** A direction word, or two or more of them joined by " and ". *)
Definition directional (R : string) : Prop :=
  R ∈ dir_words \/
  exists ws, (2 <= length ws)%nat /\ Forall (fun w => w ∈ dir_words) ws /\ R = join ws and_sep.

Ltac word_cases H :=
  repeat (apply elem_of_cons in H as [->|H]); [..|apply elem_of_nil in H; contradiction].

Lemma list_ascii_of_string_append a b :
  list_ascii_of_string (String.append a b) = list_ascii_of_string a ++ list_ascii_of_string b.
Proof. induction a as [|c a IH]; simpl; [reflexivity|]. by rewrite IH. Qed.

Lemma is_prefix_app p rest : is_prefix p (p ++ rest) = true.
Proof.
  induction p as [|c p IH]; simpl; [reflexivity|].
  destruct (Ascii.ascii_dec c c); [exact IH | contradiction].
Qed.

Lemma includes_l_app sep u rest : includes_l sep (u ++ sep ++ rest) = true.
Proof.
  induction u as [|c u IH]; simpl.
  - destruct sep as [|c sep]; [destruct rest; reflexivity|]. simpl.
    destruct (Ascii.ascii_dec c c); [|contradiction]. by rewrite is_prefix_app.
  - rewrite IH. apply orb_true_r.
Qed.

(** The fuel of [split_go] does not matter once it exceeds the input. *)
Lemma split_go_fuel sep f1 f2 s cur :
  sep <> [] -> (length s < f1)%nat -> (length s < f2)%nat ->
  split_go f1 sep s cur = split_go f2 sep s cur.
Proof.
  intros Hsep. revert f2 s cur.
  induction f1 as [|f1 IH]; intros f2 s cur H1 H2; [lia|].
  destruct f2 as [|f2]; [lia|]. simpl.
  destruct s as [|c s]; [reflexivity|].
  destruct (is_prefix sep (c :: s)).
  - f_equal. destruct sep as [|c0 sep]; [congruence|].
    apply IH; rewrite length_drop; simpl in *; lia.
  - apply IH; simpl in *; lia.
Qed.

Lemma and_sep_nonempty : list_ascii_of_string and_sep <> [].
Proof. discriminate. Qed.

Lemma split_go_skip sep u tail f cur :
  (forall i, (i < length u)%nat -> is_prefix sep (drop i u ++ tail) = false) ->
  split_go (length u + f) sep (u ++ tail) cur = split_go f sep tail (cur ++ u).
Proof.
  revert cur. induction u as [|c u IH]; intros cur Hno.
  - simpl. by rewrite app_nil_r.
  - simpl. pose proof (Hno 0%nat ltac:(simpl; lia)) as H0. simpl in H0. rewrite H0.
    rewrite IH.
    + by rewrite <- app_assoc.
    + intros i Hi. apply (Hno (S i)). simpl. lia.
Qed.

Lemma split_go_at_sep sep rest f cur :
  sep <> [] -> split_go (S f) sep (sep ++ rest) cur = cur :: split_go f sep rest [].
Proof.
  intros Hsep. destruct sep as [|c sep]; [congruence|].
  simpl. rewrite is_prefix_app.
  destruct (Ascii.ascii_dec c c); [|contradiction].
  by rewrite drop_app_length.
Qed.

Lemma word_no_sep w tail i :
  w ∈ dir_words -> (i < length (list_ascii_of_string w))%nat ->
  is_prefix (list_ascii_of_string and_sep) (drop i (list_ascii_of_string w) ++ tail) = false.
Proof.
  intros Hw Hi. word_cases Hw; simpl in Hi;
    (do 13 (destruct i as [|i]; [first [reflexivity | lia]|])); lia.
Qed.

Lemma split_go_word_sep w rest cur :
  w ∈ dir_words ->
  split_go (S (length (list_ascii_of_string w ++ list_ascii_of_string and_sep ++ rest)))
           (list_ascii_of_string and_sep) (list_ascii_of_string w ++ list_ascii_of_string and_sep ++ rest) cur
  = (cur ++ list_ascii_of_string w)
      :: split_go (S (length rest)) (list_ascii_of_string and_sep) rest [].
Proof.
  intros Hw.
  replace (S (length (list_ascii_of_string w ++ list_ascii_of_string and_sep ++ rest)))
    with (length (list_ascii_of_string w) + S (5 + length rest))%nat
    by (rewrite !length_app; simpl; lia).
  rewrite split_go_skip by (intros i Hi; by apply word_no_sep).
  rewrite split_go_at_sep by apply and_sep_nonempty.
  f_equal. apply split_go_fuel; [apply and_sep_nonempty | lia | lia].
Qed.

Lemma split_go_word_last w cur :
  w ∈ dir_words ->
  split_go (S (length (list_ascii_of_string w))) (list_ascii_of_string and_sep)
           (list_ascii_of_string w) cur
  = [cur ++ list_ascii_of_string w].
Proof.
  intros Hw.
  replace (S (length (list_ascii_of_string w))) with (length (list_ascii_of_string w) + 1)%nat by lia.
  rewrite <- (app_nil_r (list_ascii_of_string w)) at 2.
  rewrite split_go_skip by (intros i Hi; by apply word_no_sep).
  reflexivity.
Qed.

Lemma split_join ws :
  ws <> [] -> Forall (fun w => w ∈ dir_words) ws -> split (join ws and_sep) and_sep = ws.
Proof.
  induction ws as [|w ws IH]; intros Hne Hall; [congruence|].
  inversion Hall as [|? ? Hw Hrest]; subst.
  destruct ws as [|w' ws].
  - unfold split. simpl join. rewrite split_go_word_last by exact Hw.
    simpl. by rewrite string_of_list_ascii_of_string.
  - unfold split in *. simpl join in *.
    rewrite !list_ascii_of_string_append.
    rewrite split_go_word_sep by exact Hw. simpl map.
    rewrite string_of_list_ascii_of_string. f_equal.
    apply IH; [discriminate | exact Hrest].
Qed.

Lemma includes_join ws :
  (2 <= length ws)%nat -> includes (join ws and_sep) and_sep = true.
Proof.
  destruct ws as [|w [|w' ws]]; simpl; intros H; [lia|lia|].
  unfold includes. rewrite !list_ascii_of_string_append.
  apply includes_l_app.
Qed.

Lemma lookup_or_self_word w : w ∈ dir_words -> lookup_or_self w ∈ dir_words.
Proof. intros Hw. word_cases Hw; vm_compute; set_solver. Qed.

Lemma lookup_or_self_invol w : w ∈ dir_words -> lookup_or_self (lookup_or_self w) = w.
Proof. intros Hw. word_cases Hw; reflexivity. Qed.

Lemma includes_word w : w ∈ dir_words -> includes w and_sep = false.
Proof. intros Hw. word_cases Hw; reflexivity. Qed.

Lemma invertSpatial_join ws :
  (2 <= length ws)%nat -> Forall (fun w => w ∈ dir_words) ws ->
  invertSpatial (join ws and_sep) = join (map lookup_or_self ws) and_sep.
Proof.
  intros Hlen Hall. unfold invertSpatial.
  rewrite includes_join by exact Hlen.
  rewrite split_join; [reflexivity| |exact Hall].
  destruct ws; simpl in Hlen; [lia|discriminate].
Qed.

(** C8 *)
(** [invertSpatial] is an involution on the relations it handles: every
    direction word, SAME LOCATION, and every combination of two or more
    of them joined with " and ". *)
Theorem invertSpatial_involutive (R : string) :
  directional R -> invertSpatial (invertSpatial R) = R.
Proof.
  intros [Hw | (ws & Hlen & Hall & ->)].
  - unfold invertSpatial at 2. rewrite includes_word by exact Hw.
    unfold invertSpatial. rewrite includes_word by (apply lookup_or_self_word; exact Hw).
    apply lookup_or_self_invol. exact Hw.
  - rewrite invertSpatial_join by assumption.
    rewrite invertSpatial_join.
    + rewrite map_map. f_equal. clear Hlen. induction Hall as [|w ws Hw Hall IH]; [reflexivity|].
      simpl. rewrite lookup_or_self_invol by exact Hw. by rewrite IH.
    + by rewrite length_map.
    + apply Forall_map. eapply Forall_impl; [exact Hall|]. intros w Hw. by apply lookup_or_self_word.
Qed.

Lemma invertSpatial_involutive_witness :
  directional "ABOVE and SOUTH and WEST" /\
  invertSpatial (invertSpatial "ABOVE and SOUTH and WEST") = "ABOVE and SOUTH and WEST".
Proof.
  assert (H : directional "ABOVE and SOUTH and WEST").
  { right. exists ["ABOVE"; "SOUTH"; "WEST"]. split; [simpl; lia|]. split; [|reflexivity].
    repeat constructor; vm_compute; set_solver. }
  split; [exact H | apply (invertSpatial_involutive "ABOVE and SOUTH and WEST"); exact H].
Defined.

(** ** Adaptive difficulty *)

(** What the streak counters hold in every session state reached with
    [autoProgress] on: the progress streak counts the correct answers since
    the last depth change, the mistake streak the incorrect ones while the
    depth is above 2. *)
Definition streaks_ok (s : Session) (evs : list Event) : Prop :=
  2 <= depth s /\
  progressCount s = Z.of_nat (run_since true evs) /\ progressCount s <= 2 /\
  mistakeCount s = (if 2 <? depth s then Z.of_nat (run_since false evs) else 0) /\
  mistakeCount s <= 1.

Lemma streaks_ok_start d0 : 2 <= d0 -> streaks_ok (startSession d0) [].
Proof. intros H. unfold streaks_ok; simpl. destruct (2 <? d0); repeat split; lia. Qed.

Lemma adapt_step s evs a :
  streaks_ok s evs ->
  streaks_ok (adapt true s a) ((a, negb (Z.eqb (depth (adapt true s a)) (depth s))) :: evs).
Proof.
  intros (Hd & Hp & Hp2 & Hm & Hm1).
  destruct s as [d p m]; simpl in *.
  unfold streaks_ok. destruct a; simpl.
  - destruct (Z.leb_spec 2 p); simpl.
    + rewrite (proj2 (Z.eqb_neq (d + 1) d)) by lia. simpl.
      destruct (2 <? d + 1); simpl; repeat split; lia.
    + rewrite Z.eqb_refl. simpl. rewrite Nat2Z.inj_succ.
      destruct (2 <? d); simpl; repeat split; lia.
  - revert Hm. destruct (Z.ltb_spec 2 d); intros Hm; simpl.
    + destruct (Z.leb_spec 1 m); simpl.
      * rewrite (proj2 (Z.eqb_neq (d - 1) d)) by lia. simpl.
        destruct (2 <? d - 1); simpl; repeat split; lia.
      * rewrite Z.eqb_refl. simpl. rewrite Nat2Z.inj_succ.
        destruct (Z.ltb_spec 2 d); [|lia]. repeat split; lia.
    + rewrite Z.eqb_refl. simpl.
      destruct (Z.ltb_spec 2 d); [lia|]. repeat split; lia.
Qed.

Lemma run_streaks s answers evs :
  streaks_ok s evs ->
  let '(s', evs') := run true s answers evs in streaks_ok s' evs'.
Proof.
  revert s evs. induction answers as [|a answers IH]; intros s evs H; simpl; [exact H|].
  apply IH. apply adapt_step. exact H.
Qed.

(** C6 *)
(** With [autoProgress] on, from a session started at depth [d0 >= 2], after
    any sequence of answers and for the next answer [a]: the depth stays at
    least 2; it changes by at most one; it rises exactly when [a] is correct
    and two correct answers precede it since the last change (three in a
    row), resetting the progress streak; it falls exactly when [a] is
    incorrect, the depth is above 2 and one incorrect answer precedes it
    since the last change (two in a row), resetting the mistake streak; a
    correct answer clears the mistake streak and an incorrect one the
    progress streak. *)
Theorem adaptive_depth_loop (d0 : Z) (answers : list bool) (a : bool) (s : Session)
  (evs : list Event) :
  2 <= d0 ->
  run true (startSession d0) answers [] = (s, evs) ->
  2 <= depth s /\ 2 <= depth (adapt true s a) /\
  (depth (adapt true s a) = depth s + 1 \/ depth (adapt true s a) = depth s \/
   depth (adapt true s a) = depth s - 1) /\
  (depth (adapt true s a) = depth s + 1 <-> a = true /\ run_since true evs = 2%nat) /\
  (depth (adapt true s a) = depth s - 1 <->
     a = false /\ 2 < depth s /\ run_since false evs = 1%nat) /\
  (depth (adapt true s a) = depth s + 1 -> progressCount (adapt true s a) = 0) /\
  (depth (adapt true s a) = depth s - 1 -> mistakeCount (adapt true s a) = 0) /\
  (a = true -> mistakeCount (adapt true s a) = 0) /\
  (a = false -> progressCount (adapt true s a) = 0).
Proof.
  intros Hd0 Hrun.
  pose proof (run_streaks (startSession d0) answers [] (streaks_ok_start d0 Hd0)) as Hinv.
  rewrite Hrun in Hinv.
  pose proof (adapt_step s evs a Hinv) as (Hd' & _).
  destruct Hinv as (Hd & Hp & Hp2 & Hm & Hm1).
  split; [exact Hd|]. split; [exact Hd'|].
  destruct s as [d p m]; simpl in *.
  destruct a; simpl.
  - destruct (Z.leb_spec 2 p); simpl.
    + assert (run_since true evs = 2%nat) by lia.
      repeat split; intros; try lia; try discriminate.
    + assert (run_since true evs <> 2%nat) by lia.
      repeat split; intros; try lia; try discriminate.
      all: try (match goal with H : _ /\ _ |- _ => destruct H; lia end).
  - revert Hm. destruct (Z.ltb_spec 2 d); intros Hm; simpl.
    + destruct (Z.leb_spec 1 m); simpl.
      * assert (run_since false evs = 1%nat) by lia.
        repeat split; intros; try lia; try discriminate.
      * assert (run_since false evs <> 1%nat) by lia.
        repeat split; intros; try lia; try discriminate.
        all: try (match goal with H : _ /\ _ |- _ => destruct H as (_ & _ & ?); lia end).
    + repeat split; intros; try lia; try discriminate.
      all: try (match goal with H : _ /\ _ |- _ => destruct H as (_ & ? & _); lia end).
Qed.

Lemma adaptive_depth_loop_witness :
  2 <= 2 /\
  run true (startSession 2) [true; true] [] = (mkSession 2 2 0, [(true, false); (true, false)]) /\
  depth (adapt true (mkSession 2 2 0) true) = depth (mkSession 2 2 0) + 1.
Proof.
  split; [lia|]. split; [reflexivity|].
  pose proof (adaptive_depth_loop 2 [true; true] true (mkSession 2 2 0)
                [(true, false); (true, false)] ltac:(lia) eq_refl) as H.
  destruct H as (_ & _ & _ & Hup & _).
  apply Hup. split; reflexivity.
Defined.

(** ** Concrete rounds *)

(** A draw [r] with [Math.floor(r / 2^53 * n) = k]: the middle of the [k]-th slot. *)
Definition draw_for (k n : Z) : Z := (2 * k + 1) * two53 / (2 * n).

Definition settings_with (deictic movement : bool) : GameSettings :=
  mkSettings (fun _ => true) 2 true true 15 5 false false EMOJI deictic false false false movement.

(** SPATIAL_2D, one premise ("item 1 is EAST of item 0"), Movement only:
    start at item 0 facing EAST, turn right, turn left, ask about item 1. *)
Definition movement_draws : list Z :=
  [draw_for 2 4; draw_for 0 1; draw_for 0 2; draw_for 1 4; draw_for 0 2;
   draw_for 1 2; draw_for 1 2; draw_for 1 2; draw_for 0 2; draw_for 1 2; draw_for 1 2].

(** ** Deictic and Movement rotations *)

(** C1 *)
(** The Movement sub-mode does not rotate like the Deictic one: for a walker
    facing EAST (heading 1) and a target one step east, Deictic's rotation
    gives (0, 1), FRONT, while Movement's gives (0, -1), BEHIND; in a whole
    round the walker at item 0 facing EAST after "turn right, turn left" is
    asked whether item 1, one step east, is BEHIND, and the stored answer
    is YES. *)
Theorem movement_rotation_east_mismatch :
  deictic_rotate 1 1 0 = (0, 1) /\ classify_local 0 1 = "FRONT" /\
  movement_rotate 1 1 0 = (0, -1) /\ classify_local 0 (-1) = "BEHIND" /\
  generateLogic insertion_sort plain_symbols (settings_with false true) SPATIAL_2D 1 false
    movement_draws
  = Some (mkRound [mkPremise 1 "EAST" 0] (Q_move 0 1 [TURN_RIGHT; TURN_LEFT] 1 "BEHIND")
            true ["MOVEMENT"] [origin; mkPos 1 0 0], []).
Proof. repeat split; vm_compute; reflexivity. Qed.

(** East and West are swapped, North and South agree. *)
Lemma movement_rotate_vs_deictic dx dy :
  movement_rotate 0 dx dy = deictic_rotate 0 dx dy /\
  movement_rotate 2 dx dy = deictic_rotate 2 dx dy /\
  movement_rotate 1 dx dy = deictic_rotate 3 dx dy /\
  movement_rotate 3 dx dy = deictic_rotate 1 dx dy.
Proof. repeat split. Qed.

(** ** Sub-mode selection *)

(** C7 *)
(** With only Movement enabled, a SPATIAL_3D round is a plain STANDARD
    round: Movement is not offered in 3D. *)
Lemma submode_3d_movement_only_standard :
  selectSpatialType (settings_with false true) true [draw_for 0 1] = Some ("STANDARD", []).
Proof. vm_compute. reflexivity. Qed.

Lemma str_at_elem (l : list string) k : (k < length l)%nat -> str_at l k ∈ l.
Proof. intros Hk. apply list_elem_of_In, nth_In, Hk. Qed.

Definition modifier_submodes (s : GameSettings) (is3D : bool) : list string :=
  (if enableDeictic s then ["DEICTIC"] else [])
  ++ (if enableMovement s && negb is3D then ["MOVEMENT"] else []).

Lemma availableTypes_eq s is3D :
  availableTypes s is3D =
  match modifier_submodes s is3D with [] => ["STANDARD"] | ms => ms end.
Proof.
  unfold availableTypes, modifier_submodes.
  destruct (enableDeictic s), (enableMovement s), is3D; reflexivity.
Qed.

(** C7 *)
(** The spatial sub-mode is STANDARD when no modifier sub-mode is available
    for the round (Deictic in 2D and 3D, Movement in 2D only), and otherwise
    one of the available modifier sub-modes, never STANDARD. *)
Theorem spatial_submode_selection (s : GameSettings) (is3D : bool) ds t ds1 :
  selectSpatialType s is3D ds = Some (t, ds1) ->
  (modifier_submodes s is3D = [] -> t = "STANDARD") /\
  (modifier_submodes s is3D <> [] -> t ∈ modifier_submodes s is3D /\ t <> "STANDARD").
Proof.
  unfold selectSpatialType. intros H. peel H. apply retM_Some in H. injection H as Ht _. subst t.
  rewrite availableTypes_eq in *.
  assert (Hk : (v < length (match modifier_submodes s is3D with [] => ["STANDARD"] | ms => ms end))%nat).
  { eapply rand_below_range; [exact Hm|]. destruct (modifier_submodes s is3D); simpl; lia. }
  assert (Hns : "STANDARD" ∉ modifier_submodes s is3D).
  { unfold modifier_submodes. destruct (enableDeictic s), (enableMovement s), is3D; simpl;
      set_solver. }
  destruct (modifier_submodes s is3D) as [|m ms] eqn:E.
  - split; [intros _|intros; congruence]. simpl in Hk. destruct v; [reflexivity|lia].
  - split; [intros; discriminate|intros _].
    assert (Hin : str_at (m :: ms) v ∈ m :: ms) by (apply str_at_elem; exact Hk).
    split; [exact Hin|]. intros Heq. rewrite Heq in Hin. contradiction.
Qed.

Lemma spatial_submode_selection_witness :
  selectSpatialType (settings_with true true) false [draw_for 1 2] = Some ("MOVEMENT", []) /\
  "MOVEMENT" ∈ modifier_submodes (settings_with true true) false /\ "MOVEMENT" <> "STANDARD".
Proof.
  assert (H : selectSpatialType (settings_with true true) false [draw_for 1 2] = Some ("MOVEMENT", []))
    by (vm_compute; reflexivity).
  split; [exact H|].
  apply (spatial_submode_selection (settings_with true true) false _ _ _ H).
  discriminate.
Defined.

(** ** Non-spatial frames *)

Ltac crush_binds :=
  unfold bindM, retM;
  repeat (match goal with
          | |- context [match ?e with Some _ => _ | None => _ end] =>
              lazymatch e with
              | context [match _ with _ => _ end] => fail
              | _ => destruct e as [[? ?]|]
              end
          | |- context [match ?p with (_, _) => _ end] =>
              is_var p; destruct p
          | |- context [if ?b then _ else _] =>
              is_var b; destruct b
          end; simpl);
  try reflexivity.

Section Frames.
Variable array_sort : forall A : Type, (A -> A -> M Z) -> list A -> M (list A).
Variable generateSymbols : nat -> SymbolMode -> M (list string).

(** The frame generator a non-spatial mode dispatches to. *)
Definition frame_gen (mode : RftMode) (s : GameSettings) (num : nat) (isNight : bool)
  : M (list Premise * Question * bool) :=
  match mode with
  | LINEAR => generateLinear generateSymbols s num isNight
  | DISTINCTION => generateDistinction generateSymbols s num isNight
  | _ => generateHierarchy generateSymbols s num isNight
  end.

Definition non_spatial (mode : RftMode) : bool :=
  match mode with LINEAR | DISTINCTION | HIERARCHY => true | _ => false end.

Lemma generateLogic_frame s mode num isNight ds r ds' :
  non_spatial mode = true ->
  generateLogic array_sort generateSymbols s mode num isNight ds = Some (r, ds') ->
  exists ps ds1,
    frame_gen mode s num isNight ds = Some ((ps, question r, answer r), ds1) /\
    shuffleArray array_sort ps ds1 = Some (premises r, ds') /\
    modifiers r = [] /\ visualMap r = [].
Proof.
  intros Hns H. unfold generateLogic in H. peel H.
  destruct mode; try discriminate; simpl in Hm; peel Hm;
    destruct v0 as [[ps q] a]; apply retM_Some in Hm; inversion Hm; subst; clear Hm;
    peel H; apply retM_Some in H; inversion H; subst; clear H;
    eexists _, _; simpl; repeat split; eassumption.
Qed.

(** C2 *)
(** A Linear round's answer is computed from the index order of the two
    distinct sampled items only, not from the link labels, with the
    earlier index the greater: GREATER about (idxA, idxB) holds iff
    idxA < idxB, LESS iff idxA > idxB. *)
Theorem linear_answer_index_order s num ds r ds' :
  generateLogic array_sort generateSymbols s LINEAR num false ds = Some (r, ds') ->
  exists idxA qType idxB,
    question r = Q_rel idxA qType idxB /\ idxA <> idxB /\ (idxA <= num)%nat /\ (idxB <= num)%nat /\
    ((qType = "GREATER" /\ answer r = Nat.ltb idxA idxB) \/
     (qType = "LESS" /\ answer r = Nat.ltb idxB idxA)).
Proof.
  intros H. apply generateLogic_frame in H as (ps & ds1 & Hg & _); [|reflexivity].
  simpl in Hg. unfold generateLinear in Hg.
  peel_as Hg items Hitems. peel_as Hg links Hlinks. peel_as Hg ab Hab.
  destruct ab as [idxA idxB]. peel_as Hg g Hcoin.
  apply retM_Some in Hg. injection Hg as _ Hq Ha _.
  apply getDistinct_spec in Hab as (Hne & HA & HB); [|lia].
  exists idxA, (if g then "GREATER" else "LESS"), idxB.
  repeat split; auto; try lia.
  rewrite Ha. destruct g; [left|right]; split; reflexivity.
Qed.

Lemma lookup_map_seq {A} (f : nat -> A) start n i :
  (i < n)%nat -> map f (seq start n) !! i = Some (f (start + i)%nat).
Proof.
  revert start i. induction n as [|n IH]; intros start i Hi; [lia|].
  destruct i as [|i]; simpl; [by rewrite Nat.add_0_r|].
  rewrite IH by lia. do 2 f_equal. lia.
Qed.

(** C5 *)
(** A Hierarchy round's premises are a shuffle of the fixed chain
    item[i] CONTAINS item[i+1], and its answer is (idxA > idxB) for an
    INSIDE question and (idxA < idxB) for a CONTAINS question. *)
Theorem hierarchy_chain_answer s num ds r ds' :
  generateLogic array_sort generateSymbols s HIERARCHY num false ds = Some (r, ds') ->
  (length (hierarchy_premises num) = num /\
   forall i, (i < num)%nat -> hierarchy_premises num !! i = Some (mkPremise i "CONTAINS" (S i))) /\
  (exists ds1, shuffleArray array_sort (hierarchy_premises num) ds1 = Some (premises r, ds')) /\
  exists idxA idxB, idxA <> idxB /\ (idxA <= num)%nat /\ (idxB <= num)%nat /\
    ((question r = Q_rel idxA "INSIDE" idxB /\ answer r = Nat.ltb idxB idxA) \/
     (question r = Q_rel idxA "CONTAINS" idxB /\ answer r = Nat.ltb idxA idxB)).
Proof.
  intros H. apply generateLogic_frame in H as (ps & ds1 & Hg & Hsh & _); [|reflexivity].
  simpl in Hg. unfold generateHierarchy in Hg.
  peel_as Hg items Hitems. peel_as Hg ab Hab. destruct ab as [idxA idxB].
  peel_as Hg inside Hcoin.
  apply getDistinct_spec in Hab as (Hne & HA & HB); [|lia].
  split; [split|].
  - unfold hierarchy_premises. by rewrite length_map, length_seq.
  - intros i Hi. unfold hierarchy_premises. by rewrite lookup_map_seq.
  - destruct inside; apply retM_Some in Hg; injection Hg as Hps Hq Ha _; subst ps.
    + split; [eauto|]. exists idxA, idxB. repeat split; auto; try lia.
    + split; [eauto|]. exists idxA, idxB. repeat split; auto; try lia.
Qed.

(** The chain rule of the Distinction frame, read off its premises in link
    order: [values[0]] is 0 or 1 and [values[i+1]] equals [values[i]] after
    a SAME link and [1 - values[i]] after a DIFFERENT link. *)
Definition distinction_chain_ok (num : nat) (values : list Z) (chain : list Premise) : Prop :=
  length values = S num /\ (nth 0 values 0 = 0 \/ nth 0 values 0 = 1) /\ length chain = num /\
  forall i, (i < num)%nat -> exists rel,
    chain !! i = Some (mkPremise i rel (S i)) /\
    ((rel = "SAME" /\ nth (S i) values 0 = nth i values 0) \/
     (rel = "DIFFERENT" /\ nth (S i) values 0 = 1 - nth i values 0)).

Lemma distinction_links_spec k : forall i values ds vs ps ds',
  length values = S i ->
  distinction_links i k values ds = Some ((vs, ps), ds') ->
  length vs = S (i + k) /\ (forall j, (j <= i)%nat -> nth j vs 0 = nth j values 0) /\
  length ps = k /\
  forall j, (j < k)%nat -> exists rel,
    ps !! j = Some (mkPremise (i + j) rel (S (i + j))) /\
    ((rel = "SAME" /\ nth (S (i + j)) vs 0 = nth (i + j) vs 0) \/
     (rel = "DIFFERENT" /\ nth (S (i + j)) vs 0 = 1 - nth (i + j) vs 0)).
Proof.
  induction k as [|k IH]; intros i values ds vs ps ds' Hlen H; simpl in H.
  - apply retM_Some in H. injection H as -> -> _.
    repeat split; auto; try lia; intros j Hj; lia.
  - peel_as H isSame Hcoin. peel_as H rest Hrest. destruct rest as [vs' ps'].
    apply retM_Some in H. injection H as -> -> _.
    set (values' := values ++ [if isSame then nth i values 0 else 1 - nth i values 0]) in *.
    assert (Hlen' : length values' = S (S i)) by (subst values'; rewrite length_app; simpl; lia).
    destruct (IH (S i) values' _ _ _ _ Hlen' Hrest) as (Hl & Hpre & Hlp & Hps).
    assert (Hv : forall j, (j <= i)%nat -> nth j values' 0 = nth j values 0).
    { intros j Hj. subst values'. apply app_nth1. lia. }
    assert (Hnew : nth (S i) values' 0 = if isSame then nth i values 0 else 1 - nth i values 0).
    { subst values'. rewrite app_nth2 by lia. rewrite Hlen, Nat.sub_diag. reflexivity. }
    split; [lia|]. split.
    { intros j Hj. rewrite Hpre by lia. apply Hv. exact Hj. }
    split; [simpl; lia|].
    intros j Hj. destruct j as [|j].
    + exists (if isSame then "SAME" else "DIFFERENT"). rewrite Nat.add_0_r. split; [reflexivity|].
      rewrite (Hpre (S i)) by lia. rewrite (Hpre i) by lia. rewrite Hnew, (Hv i) by lia.
      destruct isSame; [left|right]; split; reflexivity.
    + destruct (Hps j ltac:(lia)) as (rel & Hj' & Hrel). exists rel.
      replace (i + S j)%nat with (S i + j)%nat by lia. split; [exact Hj'|exact Hrel].
Qed.

(** C4 *)
(** In a Distinction round the values follow the chain rule of the
    premises, and the answer is (values[idxA] = values[idxB]) for a SAME
    question and its negation for a DIFFERENT question. *)
Theorem distinction_answer_values s num ds r ds' :
  generateLogic array_sort generateSymbols s DISTINCTION num false ds = Some (r, ds') ->
  exists values chain idxA qType idxB,
    distinction_chain_ok num values chain /\
    (exists ds1, shuffleArray array_sort chain ds1 = Some (premises r, ds')) /\
    question r = Q_rel idxA qType idxB /\ idxA <> idxB /\ (idxA <= num)%nat /\ (idxB <= num)%nat /\
    ((qType = "SAME" /\ answer r = Z.eqb (nth idxA values 0) (nth idxB values 0)) \/
     (qType = "DIFFERENT" /\ answer r = negb (Z.eqb (nth idxA values 0) (nth idxB values 0)))).
Proof.
  intros H. apply generateLogic_frame in H as (ps & ds1 & Hg & Hsh & _); [|reflexivity].
  simpl in Hg. unfold generateDistinction in Hg.
  peel_as Hg items Hitems. peel_as Hg v0 Hv0. peel_as Hg chain Hchain.
  destruct chain as [values prems]. peel_as Hg ab Hab. destruct ab as [idxA idxB].
  peel_as Hg q Hq. apply retM_Some in Hg. injection Hg as Hps Hques Ha _. subst ps.
  apply getDistinct_spec in Hab as (Hne & HA & HB); [|lia].
  apply distinction_links_spec in Hchain as (Hl & Hpre & Hlp & Hlinks); [|reflexivity].
  exists values, prems, idxA, (if q then "SAME" else "DIFFERENT"), idxB.
  split.
  - split; [simpl in Hl; lia|]. split.
    + rewrite (Hpre 0%nat) by lia. destruct v0; simpl; auto.
    + split; [exact Hlp|]. intros i Hi. exact (Hlinks i Hi).
  - split; [eauto|]. repeat split; auto; try lia.
    rewrite Ha. unfold distinction_answer. destruct q; [left|right]; split; reflexivity.
Qed.

End Frames.

(** ** Concrete Linear, Hierarchy and Distinction rounds *)

Definition coin_T : Z := draw_for 1 2.
Definition coin_F : Z := draw_for 0 2.

(** Linear, two premises: links GREATER then LESS, sampled indices 0 and 1,
    keyword GREATER; the remaining draws feed the shuffle. *)
Definition linear_draws : list Z :=
  [coin_T; coin_F; draw_for 0 3; draw_for 1 3; coin_T; coin_T; coin_T; coin_T; coin_T; coin_T].

Definition linear_round : Round :=
  mkRound [mkPremise 1 "LESS" 2; mkPremise 0 "GREATER" 1] (Q_rel 0 "GREATER" 1) true [] [].

Definition hierarchy_draws : list Z :=
  [draw_for 0 3; draw_for 1 3; coin_T; coin_T; coin_T; coin_T; coin_T; coin_T].

Definition hierarchy_round : Round :=
  mkRound [mkPremise 1 "CONTAINS" 2; mkPremise 0 "CONTAINS" 1] (Q_rel 0 "INSIDE" 1) false [] [].

Definition distinction_draws : list Z :=
  [coin_T; coin_T; coin_F; draw_for 0 3; draw_for 2 3; coin_T; coin_T; coin_T; coin_T; coin_T; coin_T].

Definition distinction_round : Round :=
  mkRound [mkPremise 1 "DIFFERENT" 2; mkPremise 0 "SAME" 1] (Q_rel 0 "SAME" 2) false [] [].

Definition rest_draws : list Z := [coin_T; coin_T; coin_T; coin_T].

(** C2 *)
(** A Linear round (no night inversion) asking "is item 0 GREATER than
    item 1" is stored as true, while "earlier index = lesser" would make it
    (0 > 1) = false. *)
Lemma linear_greater_earlier_index :
  generateLogic insertion_sort plain_symbols settings0 LINEAR 2 false linear_draws
    = Some (linear_round, rest_draws) /\
  question linear_round = Q_rel 0 "GREATER" 1 /\ answer linear_round <> Nat.ltb 1 0.
Proof. split; [vm_compute; reflexivity|]. split; [reflexivity|]. discriminate. Qed.

Lemma linear_answer_index_order_witness :
  generateLogic insertion_sort plain_symbols settings0 LINEAR 2 false linear_draws
    = Some (linear_round, rest_draws) /\
  exists idxA qType idxB,
    question linear_round = Q_rel idxA qType idxB /\ idxA <> idxB /\ (idxA <= 2)%nat /\ (idxB <= 2)%nat /\
    ((qType = "GREATER" /\ answer linear_round = Nat.ltb idxA idxB) \/
     (qType = "LESS" /\ answer linear_round = Nat.ltb idxB idxA)).
Proof.
  split; [vm_compute; reflexivity|].
  apply (linear_answer_index_order insertion_sort plain_symbols settings0 2 linear_draws
           linear_round rest_draws).
  vm_compute. reflexivity.
Defined.

Lemma hierarchy_chain_answer_witness :
  generateLogic insertion_sort plain_symbols settings0 HIERARCHY 2 false hierarchy_draws
    = Some (hierarchy_round, rest_draws) /\
  ((length (hierarchy_premises 2) = 2%nat /\
   forall i, (i < 2)%nat -> hierarchy_premises 2 !! i = Some (mkPremise i "CONTAINS" (S i))) /\
  (exists ds1, shuffleArray insertion_sort (hierarchy_premises 2) ds1
                 = Some (premises hierarchy_round, rest_draws)) /\
  exists idxA idxB, idxA <> idxB /\ (idxA <= 2)%nat /\ (idxB <= 2)%nat /\
    ((question hierarchy_round = Q_rel idxA "INSIDE" idxB /\ answer hierarchy_round = Nat.ltb idxB idxA) \/
     (question hierarchy_round = Q_rel idxA "CONTAINS" idxB /\ answer hierarchy_round = Nat.ltb idxA idxB))).
Proof.
  split; [vm_compute; reflexivity|].
  apply (hierarchy_chain_answer insertion_sort plain_symbols settings0 2 hierarchy_draws
           hierarchy_round rest_draws).
  vm_compute. reflexivity.
Defined.

Lemma distinction_answer_values_witness :
  generateLogic insertion_sort plain_symbols settings0 DISTINCTION 2 false distinction_draws
    = Some (distinction_round, rest_draws) /\
  exists values chain idxA qType idxB,
    distinction_chain_ok 2 values chain /\
    (exists ds1, shuffleArray insertion_sort chain ds1 = Some (premises distinction_round, rest_draws)) /\
    question distinction_round = Q_rel idxA qType idxB /\ idxA <> idxB /\ (idxA <= 2)%nat /\ (idxB <= 2)%nat /\
    ((qType = "SAME" /\ answer distinction_round = Z.eqb (nth idxA values 0) (nth idxB values 0)) \/
     (qType = "DIFFERENT" /\ answer distinction_round = negb (Z.eqb (nth idxA values 0) (nth idxB values 0)))).
Proof.
  split; [vm_compute; reflexivity|].
  apply (distinction_answer_values insertion_sort plain_symbols settings0 2 distinction_draws
           distinction_round rest_draws).
  vm_compute. reflexivity.
Defined.

(** ** Night-mode inversion *)

(** [isNight ? invertSpatial(rel) : rel] *)
Definition night_view (isNight : bool) (rel : string) : string :=
  if isNight then invertSpatial rel else rel.

(** The walker's final position and heading, replayed from the instructions
    stored in a Movement question. *)
Fixpoint follow_instrs (instrs : list Instr) (cur : Z * Z) (heading : nat) : (Z * Z) * nat :=
  match instrs with
  | [] => (cur, heading)
  | WALK :: rest => follow_instrs rest (walk heading cur) heading
  | TURN_RIGHT :: rest => follow_instrs rest cur ((heading + 1) mod 4)
  | TURN_LEFT :: rest => follow_instrs rest cur ((heading + 3) mod 4)
  end.

Definition is3D_of (mode : RftMode) : bool :=
  match mode with SPATIAL_3D => true | _ => false end.

(** The stored answer of a spatial question against the relation seen
    through [night_view]: for a plain question the asked keyword must be one
    of the (inverted) parts, for a Deictic or Movement question it must be
    the (inverted) bearing. *)
Definition spatial_truth (is3D isNight : bool) (positions : list Pos) (q : Question) (a : bool)
  : Prop :=
  let P k := pos_at positions k in
  match q with
  | Q_rel b kw a' =>
      a = str_mem kw (map (night_view isNight)
                        (spatial_parts is3D (x (P b) - x (P a')) (y (P b) - y (P a'))
                                            (z (P b) - z (P a'))))
  | Q_deictic me facing t kw =>
      exists fd, (fd < 4)%nat /\ facing = str_at headingNames fd /\
        a = String.eqb kw (night_view isNight
              (let '(lx, ly) := deictic_rotate fd (x (P t) - x (P me)) (y (P t) - y (P me)) in
               classify_local lx ly))
  | Q_move st h0 instrs t kw =>
      let '(fin, h) := follow_instrs instrs (x (P st), y (P st)) h0 in
      a = String.eqb kw (night_view isNight
            (let '(lx, ly) := movement_rotate h (x (P t) - fin.1) (y (P t) - fin.2) in
             classify_local lx ly))
  end.

(** The round with its stored answer negated. *)
Definition negate_answer (r : Round) : Round :=
  mkRound (premises r) (question r) (negb (answer r)) (modifiers r) (visualMap r).

Lemma map_night_view b l :
  map (night_view b) l = if b then map invertSpatial l else l.
Proof. destruct b; [reflexivity|]. unfold night_view. apply map_id. Qed.

Lemma str_mem_elem kw l : kw ∈ l -> str_mem kw l = true.
Proof.
  intros Hin. unfold str_mem. apply existsb_exists. exists kw.
  split; [apply list_elem_of_In, Hin|apply String.eqb_refl].
Qed.

Lemma ask_bearing_spec isNight rel ds kw a ds' :
  ask_bearing isNight rel ds = Some ((kw, a), ds') ->
  a = String.eqb kw (night_view isNight rel).
Proof.
  unfold ask_bearing. intros H. peel_as H t Ht. destruct t.
  - apply retM_Some in H. injection H as -> -> _. symmetry. apply String.eqb_refl.
  - peel_as H fake0 Hf0. peel_as H fake Hf. apply retM_Some in H. injection H as -> -> _.
    apply while_redraw_exit in Hf. unfold night_view. rewrite Hf. reflexivity.
Qed.

Lemma movement_moves_spec m : forall cur heading ds fin h instrs ds',
  movement_moves m cur heading ds = Some ((fin, h, instrs), ds') ->
  follow_instrs instrs cur heading = (fin, h).
Proof.
  induction m as [|m IH]; intros cur heading ds fin h instrs ds' H; simpl in H.
  - apply retM_Some in H. injection H as -> -> -> _. reflexivity.
  - peel_as H w Hw. destruct w.
    + peel_as H rest Hr. destruct rest as [[fin' h'] instrs'].
      apply retM_Some in H. injection H as -> -> -> _. simpl. eapply IH; eauto.
    + peel_as H rr Hrr. destruct rr.
      * peel_as H rest Hr. destruct rest as [[fin' h'] instrs'].
        apply retM_Some in H. injection H as -> -> -> _. simpl. eapply IH; eauto.
      * peel_as H rest Hr. destruct rest as [[fin' h'] instrs'].
        apply retM_Some in H. injection H as -> -> -> _. simpl. eapply IH; eauto.
Qed.

Lemma deictic_branch_truth is3D positions count isNight ds q a ds' :
  (0 < count)%nat ->
  deictic_branch positions count isNight ds = Some ((q, a), ds') ->
  spatial_truth is3D isNight positions q a.
Proof.
  intros Hc H. unfold deictic_branch in H.
  peel_as H mt Hmt. destruct mt as [idxMe idxTarget].
  peel_as H fd Hfd. apply rand_below_range in Hfd; [|lia].
  destruct (deictic_rotate fd _ _) as [lx ly] eqn:Hrot.
  peel_as H qa Hqa. destruct qa as [kw ans].
  apply retM_Some in H. injection H as -> -> _.
  apply ask_bearing_spec in Hqa.
  simpl. exists fd. split; [exact Hfd|]. split; [reflexivity|].
  rewrite Hrot. exact Hqa.
Qed.

Lemma movement_branch_truth is3D positions count isNight ds q a ds' :
  movement_branch positions count isNight ds = Some ((q, a), ds') ->
  spatial_truth is3D isNight positions q a.
Proof.
  intros H. unfold movement_branch in H.
  peel_as H startIdx Hs. peel_as H heading0 Hh. peel_as H mv Hmv.
  peel_as H sim Hsim. destruct sim as [[fin heading] instrs].
  apply movement_moves_spec in Hsim.
  peel_as H t Ht. peel_as H targetIdx Htg.
  destruct (movement_rotate heading _ _) as [lx ly] eqn:Hrot.
  peel_as H qa Hqa. destruct qa as [kw ans].
  apply retM_Some in H. injection H as -> -> _.
  apply ask_bearing_spec in Hqa.
  simpl. rewrite Hsim. rewrite Hrot. exact Hqa.
Qed.

Lemma standard_branch_truth is3D positions count isNight ds q a ds' :
  (0 < count)%nat ->
  standard_branch is3D positions count isNight ds = Some ((q, a), ds') ->
  spatial_truth is3D isNight positions q a.
Proof.
  intros Hc H. unfold standard_branch in H.
  peel_as H ab Hab. destruct ab as [idxA idxB].
  set (eff := if isNight then map invertSpatial _ else _) in H.
  peel_as H askTrue Hask. destruct askTrue.
  - destruct (Nat.ltb 0 (length eff)) eqn:Hlen;
      [|apply retM_Some in Hask; discriminate].
    apply Nat.ltb_lt in Hlen.
    peel_as H k Hk. apply rand_below_range in Hk; [|exact Hlen].
    apply retM_Some in H. injection H as -> -> _.
    simpl. rewrite map_night_view. fold eff.
    symmetry. apply str_mem_elem, str_at_elem, Hk.
  - peel_as H fake0 Hf0. peel_as H fake Hf.
    apply retM_Some in H. injection H as -> -> _.
    apply while_redraw_exit in Hf.
    simpl. rewrite map_night_view. fold eff. rewrite Hf. reflexivity.
Qed.

Section Night.

Variable array_sort : forall A : Type, (A -> A -> M Z) -> list A -> M (list A).
Variable generateSymbols : nat -> SymbolMode -> M (list string).

Lemma generateSpatial_truth s is3D num isNight ds ps positions t q a ds' :
  generateSpatial generateSymbols s is3D num isNight ds = Some ((ps, positions, t, q, a), ds') ->
  spatial_truth is3D isNight positions q a.
Proof.
  intros H. unfold generateSpatial in H.
  peel_as H items Hitems. peel_as H walkres Hw. destruct walkres as [prems poss].
  peel_as H sel Hsel. peel_as H qa Hqa. destruct qa as [q' a'].
  apply retM_Some in H. injection H as _ -> _ -> -> _.
  destruct (String.eqb sel "DEICTIC"); [eapply deictic_branch_truth; [|exact Hqa]; lia|].
  destruct (String.eqb sel "MOVEMENT"); [eapply movement_branch_truth; exact Hqa|].
  eapply standard_branch_truth; [|exact Hqa]; lia.
Qed.

Lemma generateLogic_night_frame s mode num ds :
  non_spatial mode = true ->
  generateLogic array_sort generateSymbols s mode num true ds =
  option_map (fun p => (negate_answer p.1, p.2))
             (generateLogic array_sort generateSymbols s mode num false ds).
Proof.
  intros Hns. unfold generateLogic.
  destruct mode; try discriminate; simpl;
    [unfold generateLinear|unfold generateHierarchy|unfold generateDistinction];
    crush_binds.
Qed.

(** C3 *)
(** Night mode. For Linear, Distinction and Hierarchy the night round is the
    day round of the same draws with its stored answer negated. For the two
    Spatial frames the stored answer (day or night) is true exactly when the
    asked keyword belongs to the relation after [invertSpatial] has been
    applied to each of its parts at night: the parts of the displacement for
    a plain question, the bearing for a Deictic or Movement question. *)
Theorem night_inversion s mode num ds :
  (non_spatial mode = true ->
   generateLogic array_sort generateSymbols s mode num true ds =
   option_map (fun p => (negate_answer p.1, p.2))
              (generateLogic array_sort generateSymbols s mode num false ds)) /\
  (forall isNight r ds',
   non_spatial mode = false ->
   generateLogic array_sort generateSymbols s mode num isNight ds = Some (r, ds') ->
   spatial_truth (is3D_of mode) isNight (visualMap r) (question r) (answer r)).
Proof.
  split; [apply generateLogic_night_frame|].
  intros isNight r ds' Hns H. unfold generateLogic in H. peel H.
  destruct mode; try discriminate; simpl in Hm; peel Hm;
    destruct v0 as [[[[ps positions] t] q] a]; apply retM_Some in Hm;
    inversion Hm; subst; clear Hm; peel H; apply retM_Some in H; inversion H; subst; simpl;
    eapply generateSpatial_truth; eassumption.
Qed.

End Night.

(** SPATIAL_2D at night, one premise ("item 1 is NORTH of item 0"), plain
    question: "is item 1 SOUTH of item 0" is stored as true. *)
Definition night_spatial_draws : list Z :=
  [draw_for 0 4; draw_for 0 1; draw_for 0 2; draw_for 1 2; coin_T; draw_for 0 1].

Definition night_spatial_round : Round :=
  mkRound [mkPremise 1 "NORTH" 0] (Q_rel 1 "SOUTH" 0) true [] [origin; mkPos 0 1 0].

Lemma night_inversion_witness :
  (non_spatial LINEAR = true /\
   generateLogic insertion_sort plain_symbols settings0 LINEAR 2 true linear_draws =
   Some (negate_answer linear_round, rest_draws)) /\
  (non_spatial SPATIAL_2D = false /\
   generateLogic insertion_sort plain_symbols (settings_with false false) SPATIAL_2D 1 true
     night_spatial_draws = Some (night_spatial_round, []) /\
   spatial_truth (is3D_of SPATIAL_2D) true (visualMap night_spatial_round)
     (question night_spatial_round) (answer night_spatial_round)).
Proof.
  split.
  - split; [reflexivity|].
    rewrite (proj1 (night_inversion insertion_sort plain_symbols settings0 LINEAR 2 linear_draws)
               eq_refl).
    vm_compute. reflexivity.
  - split; [reflexivity|]. split; [vm_compute; reflexivity|].
    apply (proj2 (night_inversion insertion_sort plain_symbols (settings_with false false)
                    SPATIAL_2D 1 night_spatial_draws) true night_spatial_round []);
      [reflexivity|vm_compute; reflexivity].
Defined.

(** ** The cipher key *)

Lemma foldl_insert_lookup {A V} (key : A -> string) (val : A -> V) (l : list A)
  (m0 : gmap string V) k v :
  NoDup (map key l) ->
  foldl (fun m a => <[key a := val a]> m) m0 l !! k = Some v <->
  ((exists a, a ∈ l /\ key a = k /\ val a = v) \/ ((k ∉ map key l) /\ m0 !! k = Some v)).
Proof.
  revert m0. induction l as [|a l IH]; intros m0 Hnd; simpl.
  - split; [intros H; right; split; [apply not_elem_of_nil|exact H]|].
    intros [(a & Ha & _)|[_ H]]; [apply elem_of_nil in Ha; contradiction|exact H].
  - apply NoDup_cons in Hnd as [Hna Hnd]. rewrite IH by exact Hnd.
    rewrite lookup_insert_Some. split.
    + intros [(a' & Ha' & Hk & Hv)|[Hnk [[Hk Hv]|[Hne Hm]]]].
      * left. exists a'. split; [apply elem_of_cons; right; exact Ha'|auto].
      * left. exists a. split; [apply elem_of_cons; left; reflexivity|auto].
      * right. split; [|exact Hm]. rewrite elem_of_cons. intros [->|Hin]; auto.
    + intros [(a' & Ha' & Hk & Hv)|[Hnk Hm]].
      * apply elem_of_cons in Ha' as [->|Ha'].
        -- right. split; [subst k; exact Hna|left; auto].
        -- left. exists a'. auto.
      * right. split; [intros Hin; apply Hnk, elem_of_cons; right; exact Hin|].
        right. split; [|exact Hm]. intros Heq. apply Hnk. rewrite <- Heq. apply elem_of_cons. left. reflexivity.
Qed.

Definition relation_slots : list (nat * string) := zip (seq 0 (length relations)) relations.

Lemma relation_slots_keys : map snd relation_slots = relations.
Proof. reflexivity. Qed.

Lemma relation_slots_index a : a ∈ relation_slots -> relations !! a.1 = Some a.2 /\ (a.1 < 20)%nat.
Proof.
  intros H. apply list_elem_of_In in H. unfold relation_slots in H. simpl in H.
  repeat (destruct H as [<-|H]; [split; [reflexivity|simpl; lia]|]). contradiction.
Qed.

Lemma NoDup_relations : NoDup relations.
Proof. apply NoDup_ListNoDup. vm_compute. repeat constructor; simpl; intuition discriminate. Qed.

Lemma NoDup_CIPHER_WORDS : NoDup CIPHER_WORDS.
Proof. apply NoDup_ListNoDup. vm_compute. repeat constructor; simpl; intuition discriminate. Qed.

Lemma fill_cipher_lookup sw k v :
  fill_cipher sw !! k = Some v <->
  exists a, a ∈ relation_slots /\ a.2 = k /\ sw !! (Nat.modulo a.1 (length sw)) = v.
Proof.
  unfold fill_cipher.
  rewrite (foldl_insert_lookup snd (fun ir : nat * string => sw !! Nat.modulo ir.1 (length sw))
             relation_slots ∅ k v)
    by (rewrite relation_slots_keys; exact NoDup_relations).
  split; [|intros H; left; exact H].
  intros [H|[_ H]]; [exact H|]. rewrite lookup_empty in H. discriminate.
Qed.

Lemma insertM_perm {A} (cmp : A -> A -> M Z) a l : forall ds r ds',
  insertM cmp a l ds = Some (r, ds') -> r ≡ₚ a :: l.
Proof.
  induction l as [|b l IH]; intros ds r ds' H; simpl in H.
  - apply retM_Some in H. injection H as -> _. reflexivity.
  - peel_as H c Hc. destruct (c <? 0).
    + apply retM_Some in H. injection H as -> _. reflexivity.
    + peel_as H r' Hr'. apply retM_Some in H. injection H as -> _.
      apply IH in Hr'. rewrite Hr'. apply perm_swap.
Qed.

Lemma insertion_sort_perm A (cmp : A -> A -> M Z) l : forall ds r ds',
  insertion_sort A cmp l ds = Some (r, ds') -> r ≡ₚ l.
Proof.
  induction l as [|a l IH]; intros ds r ds' H; simpl in H.
  - apply retM_Some in H. injection H as -> _. reflexivity.
  - peel_as H sl Hsl. apply insertM_perm in H. apply IH in Hsl.
    rewrite H, Hsl. reflexivity.
Qed.

Section Cipher.

Variable array_sort : forall A : Type, (A -> A -> M Z) -> list A -> M (list A).

(** ECMAScript: [sort] returns a permutation of the array, whatever the
    comparator returns. *)
Hypothesis sort_perm : forall A (cmp : A -> A -> M Z) l ds r ds',
  array_sort A cmp l ds = Some (r, ds') -> r ≡ₚ l.

(** C9 *)
(** Every generated cipher key maps exactly the 20 relation keywords, each
    to a defined token taken from the 24 cipher words, and no two keywords
    share a token. *)
Theorem cipher_key_injective ds m ds' :
  generateCipherKey array_sort ds = Some (m, ds') ->
  (forall k, is_Some (m !! k) <-> k ∈ relations) /\
  (forall k, k ∈ relations -> exists w, m !! k = Some (Some w) /\ w ∈ CIPHER_WORDS) /\
  (forall k1 k2 w, m !! k1 = Some (Some w) -> m !! k2 = Some (Some w) -> k1 = k2).
Proof.
  intros H. unfold generateCipherKey in H. peel_as H sw Hsw.
  apply retM_Some in H. injection H as -> _.
  apply sort_perm in Hsw.
  assert (Hlen : length sw = 24%nat) by (rewrite Hsw; reflexivity).
  assert (Hnd : NoDup sw) by (rewrite Hsw; exact NoDup_CIPHER_WORDS).
  split; [|split].
  - intros k. split.
    + intros [v Hv]. apply fill_cipher_lookup in Hv as (a & Ha & <- & _).
      apply relation_slots_index in Ha as [Hi _]. eapply list_elem_of_lookup_2. exact Hi.
    + intros Hk. rewrite <- relation_slots_keys in Hk.
      apply list_elem_of_fmap in Hk as (a & -> & Ha).
      exists (sw !! (Nat.modulo a.1 (length sw))). apply fill_cipher_lookup. eauto.
  - intros k Hk. rewrite <- relation_slots_keys in Hk.
    apply list_elem_of_fmap in Hk as (a & -> & Ha).
    pose proof (relation_slots_index a Ha) as [_ Hi].
    destruct (sw !! a.1) as [w|] eqn:Hw.
    + exists w. split.
      * apply fill_cipher_lookup. exists a. rewrite Hlen, Nat.mod_small by lia. auto.
      * rewrite <- Hsw. eapply list_elem_of_lookup_2. exact Hw.
    + apply lookup_ge_None in Hw. lia.
  - intros k1 k2 w H1 H2.
    apply fill_cipher_lookup in H1 as (a1 & Ha1 & <- & Hw1).
    apply fill_cipher_lookup in H2 as (a2 & Ha2 & <- & Hw2).
    pose proof (relation_slots_index a1 Ha1) as [Hr1 Hi1].
    pose proof (relation_slots_index a2 Ha2) as [Hr2 Hi2].
    rewrite Hlen, Nat.mod_small in Hw1, Hw2 by lia.
    assert (a1.1 = a2.1) as Heq by (eapply NoDup_lookup; eauto).
    rewrite Heq in Hr1. congruence.
Qed.

End Cipher.

(** A shuffled key: the insertion sort with comparator draws alternating
    signs. *)
Definition cipher_draws : list Z := repeat coin_T 23 ++ repeat coin_F 230.

Lemma cipher_key_injective_witness :
  exists m ds', generateCipherKey insertion_sort cipher_draws = Some (m, ds') /\
  ((forall k, is_Some (m !! k) <-> k ∈ relations) /\
   (forall k, k ∈ relations -> exists w, m !! k = Some (Some w) /\ w ∈ CIPHER_WORDS) /\
   (forall k1 k2 w, m !! k1 = Some (Some w) -> m !! k2 = Some (Some w) -> k1 = k2)).
Proof.
  destruct (generateCipherKey insertion_sort cipher_draws) as [[m ds']|] eqn:E;
    [|vm_compute in E; discriminate].
  exists m, ds'. split; [reflexivity|].
  apply (cipher_key_injective insertion_sort insertion_sort_perm cipher_draws m ds'). exact E.
Defined.

(** ** The premise shuffle *)

(** Premises in chain order: the [i]-th link relates items [i] and [i+1]
    (as [item[i] rel item[i+1]], or [item[i+1] rel item[i]] for Spatial). *)
Definition chain_order (num : nat) (ps : list Premise) : Prop :=
  length ps = num /\
  forall i, (i < num)%nat -> exists rel,
    ps !! i = Some (mkPremise i rel (S i)) \/ ps !! i = Some (mkPremise (S i) rel i).

Lemma linear_links_chain k : forall i ds ps ds',
  linear_links i k ds = Some (ps, ds') ->
  length ps = k /\ forall j, (j < k)%nat -> exists rel, ps !! j = Some (mkPremise (i + j) rel (S (i + j))).
Proof.
  induction k as [|k IH]; intros i ds ps ds' H; simpl in H.
  - apply retM_Some in H. injection H as -> _. split; [reflexivity|intros j Hj; lia].
  - peel_as H g Hg. peel_as H rest Hrest. apply retM_Some in H. injection H as -> _.
    apply IH in Hrest as [Hl Hj]. split; [simpl; lia|].
    intros j Hjk. destruct j as [|j].
    + eexists. rewrite Nat.add_0_r. reflexivity.
    + destruct (Hj j ltac:(lia)) as [rel Hr]. exists rel. simpl.
      replace (i + S j)%nat with (S i + j)%nat by lia. exact Hr.
Qed.

Lemma spatial_walk_chain is3D k : forall i cur ds ps poss ds',
  spatial_walk is3D i k cur ds = Some ((ps, poss), ds') ->
  length ps = k /\ forall j, (j < k)%nat -> exists rel, ps !! j = Some (mkPremise (S (i + j)) rel (i + j)).
Proof.
  induction k as [|k IH]; intros i cur ds ps poss ds' H; simpl in H.
  - apply retM_Some in H. injection H as -> -> _. split; [reflexivity|intros j Hj; lia].
  - peel_as H dir Hdir. destruct (dir_step dir) as [[[dx dy] dz] text].
    peel_as H rest Hrest. destruct rest as [ps' poss'].
    apply retM_Some in H. injection H as -> -> _.
    apply IH in Hrest as [Hl Hj]. split; [simpl; lia|].
    intros j Hjk. destruct j as [|j].
    + eexists. rewrite Nat.add_0_r. reflexivity.
    + destruct (Hj j ltac:(lia)) as [rel Hr]. exists rel. simpl.
      replace (i + S j)%nat with (S i + j)%nat by lia. exact Hr.
Qed.

Lemma length_map_seq_hierarchy num : length (hierarchy_premises num) = num.
Proof. unfold hierarchy_premises. rewrite length_map, length_seq. reflexivity. Qed.

Section Shuffle.

Variable array_sort : forall A : Type, (A -> A -> M Z) -> list A -> M (list A).
Variable generateSymbols : nat -> SymbolMode -> M (list string).

Lemma generateLogic_chain s mode num isNight ds r ds' :
  generateLogic array_sort generateSymbols s mode num isNight ds = Some (r, ds') ->
  exists ps ds1, chain_order num ps /\ shuffleArray array_sort ps ds1 = Some (premises r, ds').
Proof.
  intros H. destruct (non_spatial mode) eqn:Hns.
  - apply generateLogic_frame in H as (ps & ds1 & Hg & Hsh & _); [|exact Hns].
    exists ps, ds1. split; [|exact Hsh].
    destruct mode; try discriminate; simpl in Hg.
    + unfold generateLinear in Hg. peel_as Hg items Hi. peel_as Hg links Hl.
      peel_as Hg ab Hab. destruct ab. peel_as Hg g Hgc.
      apply retM_Some in Hg. injection Hg as -> _ _ _.
      apply linear_links_chain in Hl as [Hlen Hj]. split; [exact Hlen|].
      intros i Hi'. destruct (Hj i Hi') as [rel Hr]. exists rel. left. exact Hr.
    + unfold generateHierarchy in Hg. peel_as Hg items Hi.
      peel_as Hg ab Hab. destruct ab. peel_as Hg g Hgc.
      destruct g; apply retM_Some in Hg; injection Hg as -> _ _ _;
        (split; [apply length_map_seq_hierarchy|]);
        intros i Hi'; exists "CONTAINS"; left; unfold hierarchy_premises;
        rewrite lookup_map_seq by exact Hi'; reflexivity.
    + unfold generateDistinction in Hg. peel_as Hg items Hi. peel_as Hg v0 Hv0.
      peel_as Hg chain Hchain. destruct chain as [values prems].
      peel_as Hg ab Hab. destruct ab. peel_as Hg q Hq.
      apply retM_Some in Hg. injection Hg as -> _ _ _.
      apply distinction_links_spec in Hchain as (_ & _ & Hlen & Hj); [|reflexivity].
      split; [exact Hlen|]. intros i Hi'. destruct (Hj i Hi') as (rel & Hr & _).
      exists rel. left. exact Hr.
  - unfold generateLogic in H. peel H.
    destruct mode; try discriminate; simpl in Hm; peel Hm;
      destruct v0 as [[[[ps positions] t] q] a]; apply retM_Some in Hm;
      inversion Hm; subst; clear Hm; peel H; apply retM_Some in H; inversion H; subst;
      exists ps, ds1; (split; [|assumption]);
      unfold generateSpatial in Hm0; peel_as Hm0 items Hi; peel_as Hm0 walkres Hw;
      destruct walkres as [prems poss]; peel_as Hm0 sel Hsel; peel_as Hm0 qa Hqa;
      destruct qa; apply retM_Some in Hm0; injection Hm0 as -> _ _ _ _ _;
      apply spatial_walk_chain in Hw as [Hlen Hj]; (split; [exact Hlen|]);
      intros i Hi'; destruct (Hj i Hi') as [rel Hr]; exists rel; right; exact Hr.
Qed.

End Shuffle.

#[global] Instance Premise_eq_dec : EqDecision Premise.
Proof. solve_decision. Defined.

(** ** The engine's sort: V8's [Array.prototype.sort]

    ECMAScript leaves the algorithm of [sort] to the engine. V8 (Chrome,
    Node) sorts with TimSort; an array of fewer than 64 elements is one run,
    so the sort is [CountAndMakeRun] (the longest ascending or strictly
    descending prefix, the latter reversed) followed by [BinaryInsertionSort]
    of the remaining elements into it. The comparator's result is only
    tested with [order < 0]. Merging of several runs (64 elements or more)
    is not modelled. *)

Section V8.
Context {A : Type} (cmp : A -> A -> M Z).

(** [sortState.Compare(x, y) < 0] *)
Definition cmp_lt (x y : A) : M bool := let* order := cmp x y in retM (order <? 0).

(** The loop of [CountAndMakeRun]: how many of [rest] extend the run. *)
Fixpoint count_run (isDescending : bool) (previousElement : A) (rest : list A) : M nat :=
  match rest with
  | [] => retM O
  | currentElement :: rest' =>
      let* lt := cmp_lt currentElement previousElement in
      if (if isDescending then negb lt else lt) then retM O
      else let* k := count_run isDescending currentElement rest' in retM (S k)
  end.

(** The binary search of [BinaryInsertionSort] for the place of [pivot]
    in [work[left..right)]. *)
Fixpoint binary_search (fuel : nat) (pivot : A) (work : list A) (left right : nat) : M nat :=
  match fuel with
  | O => retM left
  | S fuel' =>
      if (left <? right)%nat then
        let mid := (left + (right - left) / 2)%nat in
        let* lt := cmp_lt pivot (nth mid work pivot) in
        if lt then binary_search fuel' pivot work left mid
        else binary_search fuel' pivot work (S mid) right
      else retM left
  end.

(** [BinaryInsertionSort]: insert each of [rest] into the sorted prefix. *)
Fixpoint binary_insertion (sorted rest : list A) : M (list A) :=
  match rest with
  | [] => retM sorted
  | pivot :: rest' =>
      let* left := binary_search (S (length sorted)) pivot sorted O (length sorted) in
      binary_insertion (take left sorted ++ pivot :: drop left sorted) rest'
  end.
End V8.

(** [ArrayTimSortImpl] for an array of fewer than 64 elements. *)
Definition v8_sort (A : Type) (cmp : A -> A -> M Z) (l : list A) : M (list A) :=
  match l with
  | [] | [_] => retM l
  | x0 :: x1 :: rest =>
      if (64 <=? length l)%nat then fun _ => None
      else
        let* isDescending := cmp_lt cmp x1 x0 in
        let* k := count_run cmp isDescending x1 rest in
        let runLength := (2 + k)%nat in
        let run := take runLength l in
        binary_insertion cmp (if isDescending then reverse run else run) (drop runLength l)
  end.

(** All lists of [K] draws, each draw one of the [2^53] values of
    [Math.random()]: each list has probability [1 / 2^(53 K)]. *)
Fixpoint draw_lists (K : nat) : list (list Z) :=
  match K with
  | O => [[]]
  | S K' => flat_map (fun r => map (cons r) (draw_lists K'))
                     (map Z.of_nat (seq 0 (Z.to_nat two53)))
  end.

(** The number of draw lists of length [K] on which the engine's shuffle of
    [l] returns [sigma]. *)
Definition shuffle_count (engine : forall A : Type, (A -> A -> M Z) -> list A -> M (list A))
  (l sigma : list Premise) (K : nat) : nat :=
  length (List.filter (fun ds => match shuffleArray engine l ds with
                                 | Some (out, _) => bool_decide (out = sigma)
                                 | None => false
                                 end) (draw_lists K)).

Lemma two53_nat : Z.to_nat two53 = (2 ^ 53)%nat.
Proof.
  apply Nat2Z.inj. rewrite Z2Nat.id by (unfold two53; lia).
  rewrite Nat2Z.inj_pow. reflexivity.
Qed.

Lemma draw_lists_S K :
  draw_lists (S K) = flat_map (fun r => map (cons r) (draw_lists K))
                              (map Z.of_nat (seq 0 (Z.to_nat two53))).
Proof. reflexivity. Qed.

Lemma length_flat_map_cons (xs : list Z) (L : list (list Z)) :
  length (flat_map (fun r => map (cons r) L) xs) = (length xs * length L)%nat.
Proof.
  induction xs as [|r xs IH]; [reflexivity|].
  simpl. rewrite length_app, length_map, IH. reflexivity.
Qed.

Lemma length_draw_lists K : length (draw_lists K) = (2 ^ (53 * K))%nat.
Proof.
  induction K as [|K IH]; [reflexivity|]. rewrite draw_lists_S.
  rewrite length_flat_map_cons, length_map, length_seq, IH, two53_nat, <- Nat.pow_add_r.
  replace (53 * S K)%nat with (53 + 53 * K)%nat by lia. reflexivity.
Qed.

(** The number of draw lists of length [K] on which the engine's shuffle of
    [l] puts the [i]-th premise of [l] at displayed position [j]. *)
Definition position_count (engine : forall A : Type, (A -> A -> M Z) -> list A -> M (list A))
  (l : list Premise) (i j : nat) (K : nat) : nat :=
  length (List.filter (fun ds => match shuffleArray engine l ds with
                                 | Some (out, _) => bool_decide (out !! j = l !! i)
                                 | None => false
                                 end) (draw_lists K)).

(** All lists of [K] fair coins, one per comparator call: [coin_F] gives
    a negative comparator value, [coin_T] a positive one. *)
Fixpoint coin_lists (K : nat) : list (list Z) :=
  match K with
  | O => [[]]
  | S K' => flat_map (fun r => map (cons r) (coin_lists K')) [coin_F; coin_T]
  end.

(** Whether the comparator value [Math.random() - 0.5] of draw [r] is
    negative: all that V8's sort reads of it. *)
Definition sgn (r : Z) : bool := r mod two53 - two53 / 2 <? 0.

(** [m] reads nothing of its draws but their signs. *)
Definition sign_inv {B} (m : M B) : Prop :=
  forall ds ds', map sgn ds = map sgn ds' ->
    match m ds, m ds' with
    | Some (v, r), Some (v', r') => v = v' /\ map sgn r = map sgn r'
    | None, None => True
    | _, _ => False
    end.

Lemma sign_inv_ret {B} (v : B) : sign_inv (retM v).
Proof. intros ds ds' H. simpl. auto. Qed.

Lemma sign_inv_bind {B C} (m : M B) (k : B -> M C) :
  sign_inv m -> (forall v, sign_inv (k v)) -> sign_inv (bindM m k).
Proof.
  intros Hm Hk ds ds' H. specialize (Hm ds ds' H). unfold bindM.
  destruct (m ds) as [[v r]|], (m ds') as [[v' r']|]; try contradiction; [|exact I].
  destruct Hm as [<- Hr]. apply Hk, Hr.
Qed.

Lemma sign_inv_if {B} (b : bool) (m1 m2 : M B) :
  sign_inv m1 -> sign_inv m2 -> sign_inv (if b then m1 else m2).
Proof. destruct b; auto. Qed.

Lemma sign_inv_shuffle_cmp {B} (x y : B) :
  sign_inv (cmp_lt (fun _ _ => let* r := random in retM (r - two53 / 2)) x y).
Proof.
  intros [|a ds] [|b ds'] H; try discriminate; [exact I|].
  injection H as Hab Hr. split; [exact Hab|exact Hr].
Qed.



Section V8_sign.
Context {B : Type} (cmp : B -> B -> M Z).
Hypothesis cmp_inv : forall x y, sign_inv (cmp_lt cmp x y).

Lemma count_run_sign_inv desc prev rest : sign_inv (count_run cmp desc prev rest).
Proof.
  revert desc prev. induction rest as [|cur rest IH]; intros desc prev; cbn [count_run];
    [apply sign_inv_ret|].
  apply sign_inv_bind; [apply cmp_inv|]. intros lt.
  apply sign_inv_if; [apply sign_inv_ret|].
  apply sign_inv_bind; [apply IH|]. intros k. apply sign_inv_ret.
Qed.

Lemma binary_search_sign_inv fuel pivot work left right :
  sign_inv (binary_search cmp fuel pivot work left right).
Proof.
  revert left right. induction fuel as [|fuel IH]; intros left right; cbn [binary_search];
    [apply sign_inv_ret|].
  apply sign_inv_if; [|apply sign_inv_ret].
  apply sign_inv_bind; [apply cmp_inv|]. intros lt. apply sign_inv_if; apply IH.
Qed.

Lemma binary_insertion_sign_inv sorted rest : sign_inv (binary_insertion cmp sorted rest).
Proof.
  revert sorted. induction rest as [|pivot rest IH]; intros sorted; cbn [binary_insertion];
    [apply sign_inv_ret|].
  apply sign_inv_bind; [apply binary_search_sign_inv|]. intros left. apply IH.
Qed.

Lemma v8_sort_sign_inv l : sign_inv (v8_sort B cmp l).
Proof.
  destruct l as [|x0 [|x1 rest]]; cbn [v8_sort]; try apply sign_inv_ret.
  apply sign_inv_if; [intros ds ds' _; exact I|].
  apply sign_inv_bind; [apply cmp_inv|]. intros desc.
  apply sign_inv_bind; [apply count_run_sign_inv|]. intros k.
  apply binary_insertion_sign_inv.
Qed.
End V8_sign.

Lemma shuffle_v8_sign_inv {B} (l : list B) : sign_inv (shuffleArray v8_sort l).
Proof. apply v8_sort_sign_inv. intros x y. apply sign_inv_shuffle_cmp. Qed.

Definition sign_only (f : list Z -> bool) : Prop :=
  forall ds ds', map sgn ds = map sgn ds' -> f ds = f ds'.

Lemma sign_only_outcome {B} (m : M B) (P : B -> bool) :
  sign_inv m -> sign_only (fun ds => match m ds with Some (out, _) => P out | None => false end).
Proof.
  intros Hm ds ds' H. specialize (Hm ds ds' H).
  destruct (m ds) as [[v r]|], (m ds') as [[v' r']|]; try contradiction; [|reflexivity].
  destruct Hm as [-> _]. reflexivity.
Qed.

Lemma length_filter_flat_map_cons (f : list Z -> bool) (xs : list Z) (L : list (list Z)) :
  length (List.filter f (flat_map (fun r => map (cons r) L) xs)) =
  list_sum (map (fun r => length (List.filter (fun t => f (r :: t)) L)) xs).
Proof.
  induction xs as [|r xs IH]; [reflexivity|].
  simpl. rewrite List.filter_app, length_app, IH. f_equal.
  clear. induction L as [|t L IH]; [reflexivity|]. simpl.
  destruct (f (r :: t)); simpl; congruence.
Qed.

Lemma list_sum_const {B} (c : nat) (xs : list B) :
  list_sum (map (fun _ => c) xs) = (length xs * c)%nat.
Proof. induction xs as [|x xs IH]; simpl; lia. Qed.

Lemma sgn_of_nat N i : N = (2 ^ 52)%nat -> (i < N + N)%nat -> sgn (Z.of_nat i) = (i <? N)%nat.
Proof.
  intros HN H. apply Nat2Z.inj_lt in H. rewrite Nat2Z.inj_add, HN, Nat2Z.inj_pow in H.
  change (Z.of_nat 2) with 2 in H. unfold sgn, two53.
  rewrite Z.mod_small by lia. replace (2 ^ 53 / 2) with (2 ^ 52) by reflexivity.
  destruct (Nat.ltb_spec i N) as [H'|H']; rewrite HN in H'.
  - apply Nat2Z.inj_lt in H'. rewrite Nat2Z.inj_pow in H'. apply Z.ltb_lt. lia.
  - apply Nat2Z.inj_le in H'. rewrite Nat2Z.inj_pow in H'. apply Z.ltb_ge. lia.
Qed.

(** Half of the [2^53] draws give a negative comparator value. *)
Lemma list_sum_sign (a b : nat) :
  list_sum (map (fun r => if sgn r then a else b) (map Z.of_nat (seq 0 (Z.to_nat two53)))) =
  (2 ^ 52 * a + 2 ^ 52 * b)%nat.
Proof.
  rewrite two53_nat, map_map, Nat.pow_succ_r'.
  remember (2 ^ 52)%nat as N eqn:HN.
  replace (2 * N)%nat with (N + N)%nat by lia.
  rewrite seq_app, map_app, list_sum_app.
  rewrite (map_ext_in _ (fun _ => a) (seq 0 N)).
  2:{ intros i Hi. apply in_seq in Hi. rewrite (sgn_of_nat N) by (auto; lia).
      destruct (Nat.ltb_spec i N); [reflexivity|lia]. }
  rewrite (map_ext_in _ (fun _ => b) (seq (0 + N) N)).
  2:{ intros i Hi. apply in_seq in Hi. rewrite (sgn_of_nat N) by (auto; lia).
      destruct (Nat.ltb_spec i N); [lia|reflexivity]. }
  rewrite !list_sum_const, !length_seq. lia.
Qed.

Lemma sgn_coin_F : sgn coin_F = true.
Proof. reflexivity. Qed.

Lemma sgn_coin_T : sgn coin_T = false.
Proof. reflexivity. Qed.

(** Counting draw lists for a test that reads only the comparator signs:
    each draw is a fair coin, [coin_F] or [coin_T]. *)
Lemma count_sign K : forall f, sign_only f ->
  length (List.filter f (draw_lists K)) = (2 ^ (52 * K) * length (List.filter f (coin_lists K)))%nat.
Proof.
  induction K as [|K IH]; intros f Hf.
  - simpl. destruct (f []); reflexivity.
  - rewrite draw_lists_S, length_filter_flat_map_cons.
    change (coin_lists (S K)) with (flat_map (fun r => map (cons r) (coin_lists K)) [coin_F; coin_T]).
    rewrite length_filter_flat_map_cons.
    set (cF := length (List.filter (fun t => f (coin_F :: t)) (coin_lists K))).
    set (cT := length (List.filter (fun t => f (coin_T :: t)) (coin_lists K))).
    rewrite (map_ext _ (fun r => if sgn r then (2 ^ (52 * K) * cF)%nat else (2 ^ (52 * K) * cT)%nat)).
    2:{ intros r. rewrite IH by (intros t t' Ht; apply Hf; simpl; congruence).
        destruct (sgn r) eqn:Hr; unfold cF, cT; f_equal; f_equal; apply List.filter_ext; intros t; apply Hf; simpl.
        - rewrite Hr, sgn_coin_F. reflexivity.
        - rewrite Hr, sgn_coin_T. reflexivity. }
    rewrite list_sum_sign. simpl list_sum. fold cF cT.
    replace (52 * S K)%nat with (52 + 52 * K)%nat by lia. rewrite Nat.pow_add_r.
    generalize (2 ^ 52)%nat (2 ^ (52 * K))%nat. intros x y. nia.
Qed.

Ltac count_coins n :=
  rewrite length_draw_lists;
  replace (length (List.filter _ (coin_lists 4))) with n by (vm_compute; reflexivity);
  replace (53 * 4)%nat with (52 * 4 + 4)%nat by reflexivity; rewrite Nat.pow_add_r;
  generalize (2 ^ (52 * 4))%nat; intros; change (2 ^ 4)%nat with 16%nat; lia.

(** C10 *)
(** The display order of a Hierarchy round leaks the chain. A round with
    three premises displays [shuffleArray] of the chain
    [hierarchy_premises 3] (link [i]: item [i] CONTAINS item [i+1]). Under
    V8's sort, four draws always complete that shuffle, and over them:
    - the chain comes out in its own order with probability [3/8], not the
      [1/6] of a shuffle;
    - the middle link is displayed in the middle with probability [11/16],
      not [1/3]. *)
Theorem hierarchy_shuffle_keeps_chain_order :
  (forall (generateSymbols : nat -> SymbolMode -> M (list string)) s isNight ds r ds',
     generateLogic v8_sort generateSymbols s HIERARCHY 3 isNight ds = Some (r, ds') ->
     exists ds1, shuffleArray v8_sort (hierarchy_premises 3) ds1 = Some (premises r, ds')) /\
  length (List.filter (fun ds => match shuffleArray v8_sort (hierarchy_premises 3) ds with
                                 | Some _ => true
                                 | None => false
                                 end) (draw_lists 4)) = length (draw_lists 4) /\
  (shuffle_count v8_sort (hierarchy_premises 3) (hierarchy_premises 3) 4 * 8 =
     3 * length (draw_lists 4))%nat /\
  (position_count v8_sort (hierarchy_premises 3) 1 1 4 * 16 = 11 * length (draw_lists 4))%nat.
Proof.
  split; [|split; [|split]].
  - intros gs s isNight ds r ds' H.
    apply generateLogic_frame in H as (ps & ds1 & Hg & Hsh & _); [|reflexivity].
    simpl in Hg. unfold generateHierarchy in Hg.
    peel_as Hg items Hitems. peel_as Hg ab Hab. destruct ab as [idxA idxB].
    peel_as Hg inside Hcoin.
    destruct inside; apply retM_Some in Hg; injection Hg as Hps _ _ _; subst ps; eauto.
  - rewrite count_sign.
    2:{ intros ds ds' H. pose proof (shuffle_v8_sign_inv (hierarchy_premises 3) ds ds' H) as Hm.
        destruct (shuffleArray v8_sort _ ds) as [[v r]|], (shuffleArray v8_sort _ ds') as [[v' r']|];
          first [contradiction | reflexivity]. }
    count_coins 16%nat.
  - unfold shuffle_count. rewrite count_sign by (apply sign_only_outcome, shuffle_v8_sign_inv).
    count_coins 6%nat.
  - unfold position_count. rewrite count_sign by (apply sign_only_outcome, shuffle_v8_sign_inv).
    count_coins 11%nat.
Qed.

(** * Further code of App.tsx *)

(** ** [getDistinctRandomIndices] below two items *)

Lemma redraw_while_stuck {A} f (cond : A -> bool) (draw : M A) v ds :
  cond v = true -> (forall d u d', draw d = Some (u, d') -> cond u = true) ->
  redraw_while f cond draw v ds = None.
Proof.
  revert v ds. induction f as [|f IH]; intros v ds Hv Hd; simpl; [reflexivity|].
  rewrite Hv. unfold bindM. destruct (draw ds) as [[u d']|] eqn:E; [|reflexivity].
  apply IH; [eapply Hd; exact E|exact Hd].
Qed.

Lemma rand_below_le1 k ds n ds' : (k <= 1)%nat -> rand_below k ds = Some (n, ds') -> n = 0%nat.
Proof.
  intros Hk H. unfold rand_below in H. peel_as H r Hr. apply random_range in Hr.
  apply retM_Some in H. injection H as -> _.
  destruct k as [|[|k]]; [|simpl|lia].
  - rewrite Z.mul_0_r. reflexivity.
  - rewrite Z.mul_1_r, Z.div_small by (unfold two53 in *; lia). reflexivity.
Qed.

(** ** [generateSymbols], [generateWord] *)

Definition EMOJIS : list string :=
  ["🚀"; "💎"; "🔥"; "🌊"; "⚡"; "🍄"; "👁️"; "🎲"; "🧬"; "🔮";
   "⚓"; "🪐"; "🌋"; "🦠"; "🌌"; "💊"; "🧿"; "🧩"; "🧸"; "💣"].

Definition NONSENSE_CONSONANTS : string := "BCDFGHJKLMNPQRSTVWXYZ".
Definition NONSENSE_VOWELS : string := "AEIOU".

(** The double-quote character of the HTML attributes. *)
Definition dq : string := String (Ascii.ascii_of_nat 34) EmptyString.

(** [s[k]]: the one-character string, [undefined] out of range. *)
Definition char_at (s : string) (k : nat) : string :=
  match String.get k s with Some c => String c EmptyString | None => "undefined" end.

(** The markup of [generateWord], with [THEME.dark.bg], [COMMON.dim] and
    [COMMON.accent] inlined. *)
Definition word_span (w : string) : string :=
  "<span class=" ++ dq ++ "px-1 rounded border font-mono font-bold text-sm tracking-wider inline-block"
  ++ dq ++ " style=" ++ dq ++ "background-color: #0f172a; border-color: #64748b; color: #06b6d4"
  ++ dq ++ ">" ++ w ++ "</span>".

Definition generateWord : M string :=
  let* i1 := rand_below (String.length NONSENSE_CONSONANTS) in
  let* i2 := rand_below (String.length NONSENSE_VOWELS) in
  let* i3 := rand_below (String.length NONSENSE_CONSONANTS) in
  let* i4 := rand_below (String.length NONSENSE_VOWELS) in
  retM (word_span (char_at NONSENSE_CONSONANTS i1 ++ char_at NONSENSE_VOWELS i2
                   ++ char_at NONSENSE_CONSONANTS i3 ++ char_at NONSENSE_VOWELS i4)).

Definition emoji_span (e : string) : string :=
  "<span class=" ++ dq ++ "text-2xl align-middle" ++ dq ++ ">" ++ e ++ "</span>".

(** [shuffledEmojis[i % shuffledEmojis.length]], [undefined] when empty. *)
Definition emoji_at (shuffledEmojis : list string) (i : nat) : string :=
  match shuffledEmojis !! Nat.modulo i (length shuffledEmojis) with
  | Some e => e
  | None => "undefined"
  end.

(** [roll < 0.33] and [roll < 0.66]: the doubles 0.33 and 0.66 are
    [5944751508129055 / 2^54] and [5944751508129055 / 2^53]. *)
Definition mixed_mode (roll : Z) : SymbolMode :=
  if 2 * roll <? 5944751508129055 then EMOJI
  else if roll <? 5944751508129055 then WORDS
  else VORONOI.

Section Symbols.

Variable array_sort : forall A : Type, (A -> A -> M Z) -> list A -> M (list A).

(** [generateVoronoi()] builds its polygon from [Math.cos] and [Math.sin]
    of its draws; its text is left open. *)
Variable generateVoronoi : M string.

Fixpoint symbols_loop (shuffledEmojis : list string) (mode : SymbolMode) (i k : nat)
  : M (list string) :=
  match k with
  | O => retM []
  | S k' =>
      let* currentMode :=
        (match mode with
         | MIXED => let* roll := random in retM (mixed_mode roll)
         | _ => retM mode
         end) in
      let* sym :=
        (match currentMode with
         | WORDS => generateWord
         | VORONOI => generateVoronoi
         | _ => retM (emoji_span (emoji_at shuffledEmojis i))
         end) in
      let* rest := symbols_loop shuffledEmojis mode (S i) k' in
      retM (sym :: rest)
  end.

Definition generateSymbols (count : nat) (mode : SymbolMode) : M (list string) :=
  let* shuffledEmojis := shuffleArray array_sort EMOJIS in
  symbols_loop shuffledEmojis mode 0 count.

End Symbols.

Lemma string_app_inv_l (p a b : string) : (p ++ a = p ++ b)%string -> a = b.
Proof. induction p as [|c p IH]; simpl; [auto|]. intros H. injection H as H. auto. Qed.

Lemma string_app_inv_r (a b s : string) : (a ++ s = b ++ s)%string -> a = b.
Proof.
  intros H. apply (f_equal list_ascii_of_string) in H.
  rewrite !list_ascii_of_string_append in H. apply app_inv_tail in H.
  rewrite <- (string_of_list_ascii_of_string a), <- (string_of_list_ascii_of_string b), H.
  reflexivity.
Qed.

Lemma emoji_span_inj a b : emoji_span a = emoji_span b -> a = b.
Proof.
  unfold emoji_span. intros H.
  do 5 (apply string_app_inv_l in H). eapply string_app_inv_r. exact H.
Qed.

Lemma NoDup_EMOJIS : NoDup EMOJIS.
Proof. apply NoDup_ListNoDup. vm_compute. repeat constructor; simpl; intuition discriminate. Qed.

Lemma char_at_in (s : string) i :
  (i < String.length s)%nat ->
  exists c, char_at s i = String c EmptyString /\ c ∈ list_ascii_of_string s.
Proof.
  unfold char_at. revert i. induction s as [|c s IH]; intros i Hi; simpl in Hi; [lia|].
  destruct i as [|i]; simpl.
  - exists c. split; [reflexivity|]. apply elem_of_cons. left. reflexivity.
  - destruct (IH i ltac:(lia)) as (c' & Hc & Hin). exists c'. split; [exact Hc|].
    apply elem_of_cons. right. exact Hin.
Qed.

Section Symbols_proofs.

Variable array_sort : forall A : Type, (A -> A -> M Z) -> list A -> M (list A).
Variable generateVoronoi : M string.

Lemma symbols_loop_length sh mode k : forall i ds syms ds',
  symbols_loop generateVoronoi sh mode i k ds = Some (syms, ds') -> length syms = k.
Proof.
  induction k as [|k IH]; intros i ds syms ds' H; simpl in H.
  - apply retM_Some in H. injection H as -> _. reflexivity.
  - peel_as H cm Hcm. peel_as H sy Hsym. peel_as H rest Hrest.
    apply retM_Some in H. injection H as -> _. simpl. f_equal. eapply IH. exact Hrest.
Qed.

Lemma symbols_loop_emoji sh k : forall i ds,
  symbols_loop generateVoronoi sh EMOJI i k ds =
  Some (map (fun j => emoji_span (emoji_at sh j)) (seq i k), ds).
Proof.
  induction k as [|k IH]; intros i ds; [reflexivity|].
  simpl. unfold bindM, retM. rewrite IH. reflexivity.
Qed.

Lemma symbols_loop_words sh k : forall i ds syms ds',
  symbols_loop generateVoronoi sh WORDS i k ds = Some (syms, ds') ->
  Forall (fun w => exists c1 v1 c2 v2,
            c1 ∈ list_ascii_of_string NONSENSE_CONSONANTS /\ v1 ∈ list_ascii_of_string NONSENSE_VOWELS /\
            c2 ∈ list_ascii_of_string NONSENSE_CONSONANTS /\ v2 ∈ list_ascii_of_string NONSENSE_VOWELS /\
            w = word_span (String c1 (String v1 (String c2 (String v2 EmptyString))))) syms.
Proof.
  induction k as [|k IH]; intros i ds syms ds' H; simpl in H.
  - apply retM_Some in H. injection H as -> _. constructor.
  - peel_as H cm Hcm. apply retM_Some in Hcm. injection Hcm as -> _.
    peel_as H sy Hsym. peel_as H rest Hrest. apply retM_Some in H. injection H as -> _.
    constructor; [|eapply IH; exact Hrest].
    unfold generateWord in Hsym.
    peel_as Hsym i1 H1. peel_as Hsym i2 H2. peel_as Hsym i3 H3. peel_as Hsym i4 H4.
    apply retM_Some in Hsym. injection Hsym as -> _.
    apply rand_below_range in H1, H2, H3, H4; try (simpl; lia).
    destruct (char_at_in NONSENSE_CONSONANTS i1 H1) as (c1 & E1 & I1).
    destruct (char_at_in NONSENSE_VOWELS i2 H2) as (v1 & E2 & I2).
    destruct (char_at_in NONSENSE_CONSONANTS i3 H3) as (c2 & E3 & I3).
    destruct (char_at_in NONSENSE_VOWELS i4 H4) as (v2 & E4 & I4).
    exists c1, v1, c2, v2. rewrite E1, E2, E3, E4. repeat split; assumption.
Qed.

End Symbols_proofs.

(** X1: [getDistinctRandomIndices(count)] never returns for [count <= 1]: its
    redraw loop runs out of every finite supply of draws. Whenever it
    returns, the two indices are distinct and below [count]. *)
Theorem getDistinctRandomIndices_behaviour count ds :
  ((count <= 1)%nat -> getDistinctRandomIndices count ds = None) /\
  (forall a b ds', getDistinctRandomIndices count ds = Some ((a, b), ds') ->
     a <> b /\ (a < count)%nat /\ (b < count)%nat).
Proof.
  assert (Hstuck : (count <= 1)%nat -> getDistinctRandomIndices count ds = None).
  { intros Hc. unfold getDistinctRandomIndices, bindM.
    destruct (rand_below count ds) as [[a d1]|] eqn:E1; [|reflexivity].
    destruct (rand_below count d1) as [[b d2]|] eqn:E2; [|reflexivity].
    apply rand_below_le1 in E1, E2; [|exact Hc|exact Hc]. subst a b.
    unfold while_redraw. rewrite redraw_while_stuck; [reflexivity|reflexivity|].
    intros d u d' Hu. apply rand_below_le1 in Hu; [subst u; reflexivity|exact Hc]. }
  split; [exact Hstuck|]. intros a b ds' H.
  destruct (Nat.le_gt_cases count 1) as [Hc|Hc]; [rewrite Hstuck in H by exact Hc; discriminate|].
  apply getDistinct_spec in H; [exact H|lia].
Qed.

Section Symbols_spec.

Variable array_sort : forall A : Type, (A -> A -> M Z) -> list A -> M (list A).
Variable generateVoronoi : M string.

Hypothesis sort_perm : forall A (cmp : A -> A -> M Z) l ds r ds',
  array_sort A cmp l ds = Some (r, ds') -> r ≡ₚ l.

(** X2: [generateSymbols(count, mode)] returns exactly [count] symbols. In
    EMOJI mode they are pairwise distinct exactly when [count <= 20]: from
    the 21st on, the emojis of the shuffled list repeat. *)
Theorem generateSymbols_count_distinct count mode ds syms ds' :
  generateSymbols array_sort generateVoronoi count mode ds = Some (syms, ds') ->
  length syms = count /\ (mode = EMOJI -> (NoDup syms <-> (count <= 20)%nat)).
Proof.
  intros H. unfold generateSymbols in H. peel_as H sh Hsh. apply sort_perm in Hsh.
  split; [eapply symbols_loop_length; exact H|]. intros ->.
  rewrite symbols_loop_emoji in H. injection H as <- _.
  assert (Hlen : length sh = 20%nat) by (rewrite Hsh; reflexivity).
  assert (Hnd : NoDup sh) by (rewrite Hsh; exact NoDup_EMOJIS).
  assert (Hat : forall j, emoji_at sh j = match sh !! Nat.modulo j 20 with Some e => e | None => "undefined" end)
    by (intros j; unfold emoji_at; rewrite Hlen; reflexivity).
  rewrite NoDup_alt. split.
  - intros Hd. destruct (Nat.le_gt_cases count 20) as [Hc|Hc]; [exact Hc|exfalso].
    assert (E : (0 = 20)%nat); [|discriminate].
    apply (Hd 0%nat 20%nat (emoji_span (emoji_at sh 0))).
    + rewrite lookup_map_seq by lia. reflexivity.
    + rewrite lookup_map_seq by lia. rewrite !Hat. reflexivity.
  - intros Hc i j x Hi Hj.
    assert (Hi' : (i < count)%nat)
      by (apply lookup_lt_Some in Hi; rewrite length_map, length_seq in Hi; exact Hi).
    assert (Hj' : (j < count)%nat)
      by (apply lookup_lt_Some in Hj; rewrite length_map, length_seq in Hj; exact Hj).
    rewrite lookup_map_seq in Hi, Hj by lia. injection Hi as Hi. injection Hj as Hj.
    subst x. apply emoji_span_inj in Hj. rewrite !Hat, !Nat.mod_small in Hj by lia.
    destruct (lookup_lt_is_Some_2 sh i ltac:(lia)) as [ei Ei].
    destruct (lookup_lt_is_Some_2 sh j ltac:(lia)) as [ej Ej].
    rewrite Ei, Ej in Hj. subst ej. eapply NoDup_lookup; eauto.
Qed.

End Symbols_spec.

(** X3: In WORDS mode every symbol is the nonsense-word span around four
    letters: consonant, vowel, consonant, vowel, each taken from its
    alphabet (never [undefined]). *)
Theorem generateSymbols_words_shape array_sort generateVoronoi count ds syms ds' :
  generateSymbols array_sort generateVoronoi count WORDS ds = Some (syms, ds') ->
  Forall (fun w => exists c1 v1 c2 v2,
            c1 ∈ list_ascii_of_string NONSENSE_CONSONANTS /\ v1 ∈ list_ascii_of_string NONSENSE_VOWELS /\
            c2 ∈ list_ascii_of_string NONSENSE_CONSONANTS /\ v2 ∈ list_ascii_of_string NONSENSE_VOWELS /\
            w = word_span (String c1 (String v1 (String c2 (String v2 EmptyString))))) syms.
Proof.
  intros H. unfold generateSymbols in H. peel_as H sh Hsh. eapply symbols_loop_words. exact H.
Qed.

Lemma getDistinctRandomIndices_behaviour_witness :
  getDistinctRandomIndices 1 [coin_F; coin_F; coin_F] = None /\
  (getDistinctRandomIndices 2 [coin_F; coin_F; coin_T] = Some ((0%nat, 1%nat), []) ->
   0%nat <> 1%nat /\ (0 < 2)%nat /\ (1 < 2)%nat).
Proof.
  split.
  - apply (proj1 (getDistinctRandomIndices_behaviour 1 [coin_F; coin_F; coin_F])). lia.
  - apply (proj2 (getDistinctRandomIndices_behaviour 2 [coin_F; coin_F; coin_T])).
Defined.

Lemma generateSymbols_count_distinct_witness :
  generateSymbols insertion_sort (retM "V") 3 EMOJI (repeat coin_F 19)
    = Some (map (fun j => emoji_span (emoji_at EMOJIS j)) (seq 0 3), []) /\
  length (map (fun j => emoji_span (emoji_at EMOJIS j)) (seq 0 3)) = 3%nat /\
  (NoDup (map (fun j => emoji_span (emoji_at EMOJIS j)) (seq 0 3)) <-> (3 <= 20)%nat).
Proof.
  assert (E : generateSymbols insertion_sort (retM "V") 3 EMOJI (repeat coin_F 19)
    = Some (map (fun j => emoji_span (emoji_at EMOJIS j)) (seq 0 3), [])) by (vm_compute; reflexivity).
  split; [exact E|].
  pose proof (generateSymbols_count_distinct insertion_sort (retM "V") insertion_sort_perm
    3 EMOJI _ _ _ E) as [H1 H2].
  split; [exact H1|exact (H2 eq_refl)].
Defined.

Lemma generateSymbols_words_shape_witness :
  generateSymbols insertion_sort (retM "V") 1 WORDS (repeat coin_F 23) = Some ([word_span "HEHE"], []) /\
  Forall (fun w => exists c1 v1 c2 v2,
            c1 ∈ list_ascii_of_string NONSENSE_CONSONANTS /\ v1 ∈ list_ascii_of_string NONSENSE_VOWELS /\
            c2 ∈ list_ascii_of_string NONSENSE_CONSONANTS /\ v2 ∈ list_ascii_of_string NONSENSE_VOWELS /\
            w = word_span (String c1 (String v1 (String c2 (String v2 EmptyString))))) [word_span "HEHE"].
Proof.
  assert (E : generateSymbols insertion_sort (retM "V") 1 WORDS (repeat coin_F 23) = Some ([word_span "HEHE"], []))
    by (vm_compute; reflexivity).
  split; [exact E|]. exact (generateSymbols_words_shape insertion_sort (retM "V") 1 _ _ _ E).
Defined.

(** ** Geometry of the spatial frames *)

(** Case analysis on every comparison and absolute value in the goal. *)
Ltac zcases :=
  repeat match goal with
  | |- context [Z.abs ?a] => destruct (Z.abs_spec a) as [[? ->]|[? ->]]
  | |- context [Z.ltb ?a ?b] => destruct (Z.ltb_spec a b)
  | |- context [Z.leb ?a ?b] => destruct (Z.leb_spec a b)
  end; simpl; first [reflexivity | exfalso; lia].

(** X4: in the Deictic sub-mode, facing heading [f] (0..3 = N, E, S, W), a
    target at any distance straight along heading [g] is FRONT, RIGHT,
    BEHIND or LEFT as [g] is zero, one, two or three quarter turns
    clockwise from [f]. *)
Theorem deictic_frame_quarter_turns (f g : nat) (d : Z) :
  (f < 4)%nat -> (g < 4)%nat -> 0 < d ->
  (let '(localX, localY) := deictic_rotate f (d * (walk g (0, 0)).1) (d * (walk g (0, 0)).2) in
   classify_local localX localY)
  = nth ((g + 4 - f) mod 4) ["FRONT"; "RIGHT"; "BEHIND"; "LEFT"] "".
Proof.
  intros Hf Hg Hd.
  destruct f as [|[|[|[|f]]]]; [| | | |lia]; destruct g as [|[|[|[|g]]]]; [| | | |lia| | | | |lia
    | | | | |lia| | | | |lia]; cbn [walk fst snd deictic_rotate]; unfold classify_local;
    rewrite ?Z.mul_0_r, ?Z.mul_1_r; zcases.
Qed.

Lemma invertSpatial_words :
  invertSpatial "FRONT" = "BEHIND" /\ invertSpatial "BEHIND" = "FRONT" /\
  invertSpatial "LEFT" = "RIGHT" /\ invertSpatial "RIGHT" = "LEFT" /\
  invertSpatial "SAME LOCATION" = "SAME LOCATION" /\
  invertSpatial "NORTH" = "SOUTH" /\ invertSpatial "SOUTH" = "NORTH" /\
  invertSpatial "EAST" = "WEST" /\ invertSpatial "WEST" = "EAST" /\
  invertSpatial "ABOVE" = "BELOW" /\ invertSpatial "BELOW" = "ABOVE".
Proof. vm_compute. repeat split. Qed.

(** Settle every comparison in the goal by [lia] from the hypotheses. *)
Ltac zdecide :=
  repeat match goal with
  | |- context [?a <? ?b] =>
      first [rewrite (proj2 (Z.ltb_lt a b)) by lia | rewrite (proj2 (Z.ltb_ge a b)) by lia]
  | |- context [?a <=? ?b] =>
      first [rewrite (proj2 (Z.leb_le a b)) by lia | rewrite (proj2 (Z.leb_gt a b)) by lia]
  end; cbn [andb map app].

Lemma classify_local_neg a b : classify_local (- a) (- b) = invertSpatial (classify_local a b).
Proof.
  pose proof invertSpatial_words as W. decompose [and] W; clear W.
  unfold classify_local.
  destruct (Z.lt_trichotomy b 0) as [Hb|[Hb|Hb]]; destruct (Z.lt_trichotomy a 0) as [Ha|[Ha|Ha]];
  destruct (Z.le_gt_cases (Z.abs a) (Z.abs b)); try (exfalso; lia); zdecide; congruence.
Qed.

(** X5: mirroring the target through the observer inverts the bearing:
    in both the Deictic and the Movement frames, for every heading, the
    relation of the displacement [(-dx, -dy)] is [invertSpatial] of the
    relation of [(dx, dy)]. Night mode's inverted relation is thus the
    true relation of the mirrored target. *)
Theorem bearing_mirror_inverts (h : nat) (dx dy : Z) :
  (let '(localX, localY) := deictic_rotate h (- dx) (- dy) in classify_local localX localY)
  = invertSpatial (let '(localX, localY) := deictic_rotate h dx dy in classify_local localX localY) /\
  (let '(localX, localY) := movement_rotate h (- dx) (- dy) in classify_local localX localY)
  = invertSpatial (let '(localX, localY) := movement_rotate h dx dy in classify_local localX localY).
Proof.
  split; destruct h as [|[|[|[|h]]]]; cbn [deictic_rotate movement_rotate];
    first [apply classify_local_neg | exact (classify_local_neg 0 0)].
Qed.

(** X6: the Standard sub-mode's relation parts of the reversed displacement
    are the inverted parts ([parts.map(invertSpatial)], night mode's
    effective parts), and the parts are empty exactly when the two items
    share their position on the axes the mode uses. *)
Theorem spatial_parts_reverse_and_empty (is3D : bool) (dX dY dZ : Z) :
  map invertSpatial (spatial_parts is3D dX dY dZ) = spatial_parts is3D (- dX) (- dY) (- dZ) /\
  (spatial_parts is3D dX dY dZ = [] <-> dX = 0 /\ dY = 0 /\ (if is3D then dZ = 0 else True)).
Proof.
  pose proof invertSpatial_words as W. decompose [and] W; clear W.
  unfold spatial_parts.
  destruct (Z.lt_trichotomy dX 0) as [Hx|[Hx|Hx]]; destruct (Z.lt_trichotomy dY 0) as [Hy|[Hy|Hy]];
  destruct (Z.lt_trichotomy dZ 0) as [Hz|[Hz|Hz]]; destruct is3D; zdecide;
  (split; [congruence|]); split; intros Hp; first [discriminate | reflexivity | (repeat split; lia)
    | (destruct Hp as (? & ? & ?); exfalso; lia)].
Qed.

Lemma dir_step_parts (is3D : bool) (dir : nat) :
  (dir < (if is3D then 6 else 4))%nat ->
  let '(dx, dy, dz, text) := dir_step dir in
  spatial_parts is3D dx dy dz = [text] /\ (is3D = false -> dz = 0).
Proof.
  intros H. destruct is3D; (do 6 (destruct dir as [|dir];
    [first [split; [reflexivity|intros; first [reflexivity|discriminate]] | lia]|])); lia.
Qed.

(** X7: the spatial walk of [k] links (from item [i] at [cur]) yields [k]
    premises and [k] positions; premise [j] reads [items[i+j+1] text
    items[i+j]], and [text] is exactly the Standard relation of the
    displacement between the two items' positions. In 2D no position
    leaves the plane of [cur]. *)
Theorem spatial_walk_consistent (is3D : bool) (k : nat) : forall i cur ds ps poss ds',
  spatial_walk is3D i k cur ds = Some ((ps, poss), ds') ->
  length ps = k /\ length poss = k /\
  (forall j p, ps !! j = Some p ->
     p_left p = S (i + j) /\ p_right p = (i + j)%nat /\
     spatial_parts is3D
       (x (pos_at (cur :: poss) (S j)) - x (pos_at (cur :: poss) j))
       (y (pos_at (cur :: poss) (S j)) - y (pos_at (cur :: poss) j))
       (z (pos_at (cur :: poss) (S j)) - z (pos_at (cur :: poss) j)) = [p_rel p]) /\
  (is3D = false -> Forall (fun q => z q = z cur) poss).
Proof.
  induction k as [|k IH]; intros i cur ds ps poss ds' H; simpl in H.
  - apply retM_Some in H. injection H as -> -> _. split; [reflexivity|]. split; [reflexivity|].
    split; [intros j p Hj; rewrite lookup_nil in Hj; discriminate|]. intros _. constructor.
  - peel_as H dir Hdir.
    assert (Hlt : (dir < (if is3D then 6 else 4))%nat)
      by (eapply rand_below_range; [exact Hdir|destruct is3D; lia]).
    pose proof (dir_step_parts is3D dir Hlt) as Hst.
    destruct (dir_step dir) as [[[dx dy] dz] text].
    destruct Hst as [Hparts Hz].
    peel_as H rest Hrest. destruct rest as [ps' poss'].
    apply retM_Some in H. injection H as -> -> _.
    destruct (IH _ _ _ _ _ _ Hrest) as (Hl1 & Hl2 & Hps & Hz').
    split; [simpl; lia|]. split; [simpl; lia|]. split.
    + intros [|j] p Hj.
      * injection Hj as <-. unfold pos_at; simpl. rewrite Nat.add_0_r. split; [reflexivity|]. split; [reflexivity|].
        replace (x cur + dx - x cur) with dx by lia. replace (y cur + dy - y cur) with dy by lia.
        replace (z cur + dz - z cur) with dz by lia. exact Hparts.
      * simpl in Hj. destruct (Hps j p Hj) as (Hl & Hr & Hp). rewrite Hl, Hr.
        split; [lia|]. split; [lia|]. exact Hp.
    + intros H3. constructor; [simpl; rewrite (Hz H3); lia|].
      specialize (Hz' H3). simpl in Hz'. rewrite Forall_forall in Hz' |- *.
      intros q Hq. rewrite (Hz' q Hq), (Hz H3). lia.
Qed.

Lemma deictic_frame_quarter_turns_witness :
  (let '(localX, localY) := deictic_rotate 1 (3 * (walk 2 (0, 0)).1) (3 * (walk 2 (0, 0)).2) in
   classify_local localX localY) = "RIGHT".
Proof. exact (deictic_frame_quarter_turns 1 2 3 ltac:(lia) ltac:(lia) ltac:(lia)). Defined.

Lemma spatial_walk_consistent_witness :
  spatial_walk false 0 2 origin [draw_for 2 4; draw_for 0 4]
    = Some (([mkPremise 1 "EAST" 0; mkPremise 2 "NORTH" 1], [mkPos 1 0 0; mkPos 1 1 0]), []) /\
  length [mkPremise 1 "EAST" 0; mkPremise 2 "NORTH" 1] = 2%nat /\
  length [mkPos 1 0 0; mkPos 1 1 0] = 2%nat /\
  (forall j p, [mkPremise 1 "EAST" 0; mkPremise 2 "NORTH" 1] !! j = Some p ->
     p_left p = S (0 + j) /\ p_right p = (0 + j)%nat /\
     spatial_parts false
       (x (pos_at (origin :: [mkPos 1 0 0; mkPos 1 1 0]) (S j)) - x (pos_at (origin :: [mkPos 1 0 0; mkPos 1 1 0]) j))
       (y (pos_at (origin :: [mkPos 1 0 0; mkPos 1 1 0]) (S j)) - y (pos_at (origin :: [mkPos 1 0 0; mkPos 1 1 0]) j))
       (z (pos_at (origin :: [mkPos 1 0 0; mkPos 1 1 0]) (S j)) - z (pos_at (origin :: [mkPos 1 0 0; mkPos 1 1 0]) j))
     = [p_rel p]) /\
  (false = false -> Forall (fun q => z q = z origin) [mkPos 1 0 0; mkPos 1 1 0]).
Proof.
  assert (E : spatial_walk false 0 2 origin [draw_for 2 4; draw_for 0 4]
    = Some (([mkPremise 1 "EAST" 0; mkPremise 2 "NORTH" 1], [mkPos 1 0 0; mkPos 1 1 0]), []))
    by (vm_compute; reflexivity).
  split; [exact E|]. exact (spatial_walk_consistent false 2 0 origin _ _ _ _ E).
Defined.

(** ** The session record kept by [handleAnswer] *)

(** A [SessionRecord] of the log, by the fields the code computes from the
    answer: [userAnswer], [correctAnswer] and [isCorrect] (the id, reaction
    time, premises, question and modifiers are copied from the round). *)
Record LogEntry := mkLog { userAnswerStr : string; correctAnswerStr : string; isCorrect : bool }.

(** The state [handleAnswer] updates: the streaks and depth of [Session],
    [currentScore], [questionsAttempted], [maxDepthReached] and
    [sessionLog], read as they stand when the answer is given. *)
Record Game := mkGame {
  streaks : Session;
  currentScore : Z;
  questionsAttempted : Z;
  maxDepthReached : Z;
  sessionLog : list LogEntry
}.

(** [startSession]: score, counters and log reset, [maxDepthReached] set
    to [settings.numPremises]. *)
Definition startSession_game (numPremises : Z) : Game :=
  mkGame (startSession numPremises) 0 0 numPremises [].

(** [userAnswer === expectedAnswerRef.current] *)
Definition answer_correct (userAnswer : option bool) (expected : bool) : bool :=
  match userAnswer with Some b => Bool.eqb b expected | None => false end.

(** [newLog]'s [userAnswer], [correctAnswer] and [isCorrect]. *)
Definition log_entry (userAnswer : option bool) (expected : bool) : LogEntry :=
  let finalAnswerStr := match userAnswer with None => "TIMEOUT" | Some b => if b then "YES" else "NO" end in
  let correctStr := if expected then "YES" else "NO" in
  mkLog finalAnswerStr correctStr (answer_correct userAnswer expected).

Definition handleAnswer_game (autoProgress : bool) (g : Game) (userAnswer : option bool)
  (expected : bool) : Game :=
  let s := streaks g in
  let correct := answer_correct userAnswer expected in
  mkGame (handleAnswer autoProgress s userAnswer expected)
    (* [s + numPremises * 10] or [Math.max(0, s - 20)] *)
    (if correct then currentScore g + depth s * 10 else Z.max 0 (currentScore g - 20))
    (questionsAttempted g + 1)
    (* [Math.max(d, settings.numPremises + 1)] on a depth increase *)
    (if correct && autoProgress && (2 <=? progressCount s)
     then Z.max (maxDepthReached g) (depth s + 1) else maxDepthReached g)
    (log_entry userAnswer expected :: sessionLog g).

(** A session's answers in order: (the user's answer, the expected one). *)
Fixpoint play (autoProgress : bool) (g : Game) (answers : list (option bool * bool)) : Game :=
  match answers with
  | [] => g
  | (u, e) :: rest => play autoProgress (handleAnswer_game autoProgress g u e) rest
  end.

Lemma handleAnswer_game_inv autoProgress g u e d0 :
  0 <= currentScore g -> 0 <= depth (streaks g) -> depth (streaks g) <= maxDepthReached g ->
  d0 <= maxDepthReached g ->
  let g' := handleAnswer_game autoProgress g u e in
  0 <= currentScore g' /\ 0 <= depth (streaks g') /\ depth (streaks g') <= maxDepthReached g' /\
  d0 <= maxDepthReached g'.
Proof.
  intros H1 H2 H3 H4. destruct g as [[d p m] sc qa md lg]; simpl in *.
  unfold handleAnswer_game, handleAnswer, adapt; simpl.
  unfold answer_correct; destruct u as [b|]; [destruct (Bool.eqb b e)|]; destruct autoProgress; simpl;
    repeat match goal with
    | |- context [if ?c then _ else _] => destruct c eqn:?
    end; simpl; rewrite ?Z.leb_le, ?Z.leb_gt, ?Z.ltb_lt, ?Z.ltb_ge in *; repeat split; lia.
Qed.

(** X8: from [startSession] with a depth of at least 0, whatever the
    answers: the score never goes below 0, [questionsAttempted] and the log
    count the answers, and [maxDepthReached] is at least both the starting
    depth and the current depth. *)
Theorem session_tally_invariants (autoProgress : bool) (d0 : Z) (answers : list (option bool * bool)) :
  0 <= d0 ->
  let g := play autoProgress (startSession_game d0) answers in
  0 <= currentScore g /\ questionsAttempted g = Z.of_nat (length answers) /\
  length (sessionLog g) = length answers /\
  d0 <= maxDepthReached g /\ depth (streaks g) <= maxDepthReached g.
Proof.
  intros Hd. simpl.
  assert (Hgen : forall g,
    0 <= currentScore g -> 0 <= depth (streaks g) -> depth (streaks g) <= maxDepthReached g ->
    d0 <= maxDepthReached g ->
    let g' := play autoProgress g answers in
    0 <= currentScore g' /\ questionsAttempted g' = questionsAttempted g + Z.of_nat (length answers) /\
    length (sessionLog g') = (length (sessionLog g) + length answers)%nat /\
    d0 <= maxDepthReached g' /\ depth (streaks g') <= maxDepthReached g').
  { induction answers as [|[u e] rest IH]; intros g H1 H2 H3 H4; simpl.
    - rewrite Z.add_0_r, Nat.add_0_r. repeat split; assumption.
    - destruct (handleAnswer_game_inv autoProgress g u e d0 H1 H2 H3 H4) as (G1 & G2 & G3 & G4).
      destruct (IH _ G1 G2 G3 G4) as (R1 & R2 & R3 & R4 & R5). simpl in R2, R3.
      repeat split; try assumption; lia. }
  destruct (Hgen (startSession_game d0)) as (R1 & R2 & R3 & R4 & R5); simpl; try lia.
  repeat split; try assumption; lia.
Qed.

(** X9: the session log lists the answers newest first, one entry per
    answer; an entry is marked correct exactly when its recorded answer
    equals its recorded correct answer, and a timeout is recorded as
    [TIMEOUT] and never as correct. *)
Theorem session_log_entries (autoProgress : bool) (g : Game) (answers : list (option bool * bool)) :
  sessionLog (play autoProgress g answers)
    = rev (map (fun ue => log_entry ue.1 ue.2) answers) ++ sessionLog g /\
  (forall u e, isCorrect (log_entry u e)
               = String.eqb (userAnswerStr (log_entry u e)) (correctAnswerStr (log_entry u e))) /\
  (forall e, userAnswerStr (log_entry None e) = "TIMEOUT" /\ isCorrect (log_entry None e) = false).
Proof.
  split; [|split].
  - revert g. induction answers as [|[u e] rest IH]; intros g; simpl; [reflexivity|].
    rewrite IH. simpl. rewrite <- app_assoc. reflexivity.
  - intros [[|]|] [|]; reflexivity.
  - intros e. split; reflexivity.
Qed.

(** ** [formatTime] *)

Definition digit (d : Z) : Ascii.ascii := Ascii.ascii_of_nat (48 + Z.to_nat d).

(** The decimal digits of [n >= 0] before [acc]; [fuel] bounds the digit
    count. *)
Fixpoint digits (fuel : nat) (n : Z) (acc : string) : string :=
  match fuel with
  | O => acc
  | S f =>
      let acc' := String (digit (n mod 10)) acc in
      if n <? 10 then acc' else digits f (n / 10) acc'
  end.

(** [n.toString()] for an integer [n]. *)
Definition toString (n : Z) : string :=
  if n <? 0 then String.append "-" (digits (S (Z.to_nat (Z.log2 (- n)))) (- n) EmptyString)
  else digits (S (Z.to_nat (Z.log2 n))) n EmptyString.

(** [str.padStart(2, "0")] *)
Definition padStart2 (str : string) : string :=
  match String.length str with
  | 0%nat => "00"
  | 1%nat => String.append "0" str
  | _ => str
  end.

(** [Math.floor(s / 60)] and [s % 60] (JavaScript's [%] truncates). *)
Definition formatTime (s : Z) : string :=
  String.append (padStart2 (toString (s / 60))) (String.append ":" (padStart2 (toString (Z.rem s 60)))).

Lemma padStart2_two n : 0 <= n < 100 ->
  padStart2 (toString n) = String (digit (n / 10)) (String (digit (n mod 10)) EmptyString).
Proof.
  intros Hn. unfold toString. rewrite (proj2 (Z.ltb_ge n 0)) by lia.
  destruct (Z.lt_ge_cases n 10) as [H|H].
  - destruct (Z.to_nat (Z.log2 n)); simpl; rewrite (proj2 (Z.ltb_lt n 10)) by lia; simpl;
      rewrite Z.div_small, Z.mod_small by lia; reflexivity.
  - assert (Hl : (1 <= Z.to_nat (Z.log2 n))%nat).
    { assert (1 <= Z.log2 n); [|lia]. apply Z.log2_le_pow2; lia. }
    destruct (Z.to_nat (Z.log2 n)) as [|f]; [lia|]. simpl.
    rewrite (proj2 (Z.ltb_ge n 10)) by lia.
    destruct f; simpl; rewrite (proj2 (Z.ltb_lt (n / 10) 10)) by (apply Z.div_lt_upper_bound; lia);
      simpl; rewrite (Z.mod_small (n / 10) 10) by (split; [apply Z.div_pos|apply Z.div_lt_upper_bound]; lia);
      reflexivity.
Qed.

(** X10: for a time of [0 <= s < 6000] seconds, [formatTime] shows the
    minutes and seconds as two digits each around a colon: MM:SS with
    MM = s / 60 and SS = s mod 60. *)
Theorem formatTime_mm_ss (s : Z) :
  0 <= s < 6000 ->
  formatTime s = String (digit (s / 60 / 10)) (String (digit (s / 60 mod 10))
                   (String ":" (String (digit (s mod 60 / 10)) (String (digit (s mod 60 mod 10)) EmptyString)))).
Proof.
  intros Hs. unfold formatTime.
  rewrite Z.rem_mod_nonneg by lia.
  rewrite padStart2_two by (split; [apply Z.div_pos|apply Z.div_lt_upper_bound]; lia).
  rewrite padStart2_two by (pose proof (Z.mod_pos_bound s 60); lia).
  reflexivity.
Qed.

(** ** [startRound] *)

Inductive GamePhase := SETUP | PREMISE_MEMORIZE | INTERFERENCE | QUESTION | RESULT | SESSION_END.

(** What [startRound] sets for the new round. *)
Record RoundState := mkRoundState {
  currentRoundMode : RftMode;
  currentCipherMap : gmap string (option string);
  cipherHasChanged : bool;
  contextIsNight : bool;
  logicData : Round;
  activeModifiers : list string;
  isYesRight : bool;
  phase : GamePhase
}.

(** [endSession()], [alert("Enable a logic module.")], or a new round. *)
Inductive RoundStart := EndSession | NoModule | Started (rs : RoundState).

(** [Object.keys(settings.activeModes)]: the key order of
    [DEFAULT_SETTINGS.activeModes], kept by the stored settings' merge. *)
Definition modeKeys : list RftMode := [LINEAR; DISTINCTION; SPATIAL_2D; SPATIAL_3D; HIERARCHY].

(** [Math.random() < 0.15]: the double [0.15] is [5404319552844595 / 2^55]. *)
Definition coin_lt_015 : M bool :=
  let* r := random in retM (Z.ltb (4 * r) 5404319552844595).

Definition interferenceColors : list string := ["red"; "blue"; "green"; "yellow"].

Section StartRound.

Variable array_sort : forall A : Type, (A -> A -> M Z) -> list A -> M (list A).
Variable generateSymbols : nat -> SymbolMode -> M (list string).

(** [startInterference()]: the modifier and the target colour's draw (the
    colour itself only drives the interference display). *)
Definition startInterference (mods : list string) : M (list string) :=
  let* _target := rand_below (length interferenceColors) in
  retM (mods ++ ["INTERFERENCE"]).

(** [startRound()], from the session timer, the current cipher map and
    [questionsAttempted]; [settings.numPremises] is the UI's positive depth. *)
Definition startRound (s : GameSettings) (sessionTimer : Z)
  (cipher : gmap string (option string)) (questionsAttempted : Z) : M RoundStart :=
  if negb (disableSessionTimer s) && (sessionTimer <=? 0) then retM EndSession else
  match List.filter (activeModes s) modeKeys with
  | [] => retM NoModule
  | enabledModes =>
      let* k := rand_below (length enabledModes) in
      let nextMode := nth k enabledModes LINEAR in
      let* cc :=
        (if enableCipher s && bool_decide (cipher = ∅) then
           let* m := generateCipherKey array_sort in retM (m, false)
         else if enableCipher s && (0 <? questionsAttempted) then
           let* low := coin_lt_015 in
           if low then let* m := generateCipherKey array_sort in retM (m, true)
           else retM (cipher, false)
         else retM (cipher, false)) in
      let '(roundCipherMap, roundCipherChanged) := cc in
      let* isNight := (if enableTransformation s then coin_gt_half else retM false) in
      let* r := generateLogic array_sort generateSymbols s nextMode (Z.to_nat (numPremises s)) isNight in
      let mods := modifiers r ++ (if roundCipherChanged then ["KEY_CHANGE"] else [])
                  ++ (if isNight then ["TRANSFORM"] else []) in
      let* yesRight := coin_gt_half in
      if blindMode s || roundCipherChanged then
        retM (Started (mkRoundState nextMode roundCipherMap roundCipherChanged isNight r mods yesRight
                         PREMISE_MEMORIZE))
      else if enableInterference s then
        let* mods' := startInterference mods in
        retM (Started (mkRoundState nextMode roundCipherMap roundCipherChanged isNight r mods' yesRight
                         INTERFERENCE))
      else
        retM (Started (mkRoundState nextMode roundCipherMap roundCipherChanged isNight r mods yesRight
                         QUESTION))
  end.

End StartRound.

(** ** The answer controls *)

Inductive Side := LeftSide | RightSide.

(** The buttons' labels: [{isYesRight ? "NO" : "YES"}] on the left,
    [{isYesRight ? "YES" : "NO"}] on the right. *)
Definition button_label (isYesRight : bool) (side : Side) : string :=
  match side with
  | LeftSide => if isYesRight then "NO" else "YES"
  | RightSide => if isYesRight then "YES" else "NO"
  end.

(** The buttons' [onClick]: [handleAnswer(!isYesRight)] on the left,
    [handleAnswer(isYesRight)] on the right. *)
Definition button_answer (isYesRight : bool) (side : Side) : bool :=
  match side with LeftSide => negb isYesRight | RightSide => isYesRight end.

(** The answer-key listener: the answers it passes to [handleAnswer]. *)
Definition answer_keys (ph : GamePhase) (isYesRight : bool) (code : string) : list bool :=
  match ph with
  | QUESTION =>
      (if String.eqb code "ArrowLeft" || String.eqb code "KeyD" then [negb isYesRight] else [])
      ++ (if String.eqb code "ArrowRight" || String.eqb code "KeyJ" then [isYesRight] else [])
  | _ => []
  end.

Lemma generateLogic_mods array_sort generateSymbols s mode num isNight ds r ds' :
  generateLogic array_sort generateSymbols s mode num isNight ds = Some (r, ds') ->
  modifiers r = [] \/ modifiers r = ["DEICTIC"] \/ modifiers r = ["MOVEMENT"].
Proof.
  intros H. unfold generateLogic in H. peel_as H built Hb.
  destruct built as [[[[ps q] a] mods] vis]. peel_as H sh Hsh.
  apply retM_Some in H. injection H as -> _. simpl.
  destruct mode; simpl in Hb; peel_as Hb v Hv;
    [destruct v as [[ps0 q0] a0] | destruct v as [[[[ps0 pos0] t0] q0] a0]
    | destruct v as [[[[ps0 pos0] t0] q0] a0] | destruct v as [[ps0 q0] a0]
    | destruct v as [[ps0 q0] a0]];
    apply retM_Some in Hb; injection Hb as _ _ _ -> _ _; auto.
  all: destruct (String.eqb t0 "DEICTIC"); [auto|]; destruct (String.eqb t0 "MOVEMENT"); auto.
Qed.

Lemma generateCipherKey_nonempty array_sort ds m ds' :
  generateCipherKey array_sort ds = Some (m, ds') -> m <> ∅.
Proof.
  intros H. unfold generateCipherKey in H. peel_as H sw Hsw.
  apply retM_Some in H. injection H as -> _. intros He.
  assert (Hl : fill_cipher sw !! "GREATER" = Some (sw !! Nat.modulo 0 (length sw))).
  { apply fill_cipher_lookup. exists (0%nat, "GREATER"). split; [|split; reflexivity].
    apply list_elem_of_In. left. reflexivity. }
  rewrite He, lookup_empty in Hl. discriminate.
Qed.

(** X11: [startRound] ends the session when the session timer is on and
    has run out; otherwise, with no logic module enabled, it only alerts;
    neither consumes a draw. A started round always uses an enabled mode. *)
Theorem startRound_outcome array_sort generateSymbols s sessionTimer cipher qa ds o ds' :
  startRound array_sort generateSymbols s sessionTimer cipher qa ds = Some (o, ds') ->
  (o = EndSession <-> disableSessionTimer s = false /\ sessionTimer <= 0) /\
  (o = NoModule <-> (disableSessionTimer s = true \/ 0 < sessionTimer) /\ forall m, activeModes s m = false) /\
  (o = EndSession \/ o = NoModule -> ds' = ds) /\
  (forall rs, o = Started rs -> activeModes s (currentRoundMode rs) = true).
Proof.
  intros H. unfold startRound in H.
  destruct (negb (disableSessionTimer s) && (sessionTimer <=? 0)) eqn:Et.
  { apply andb_true_iff in Et as [Ed Et]. apply negb_true_iff in Ed. apply Z.leb_le in Et.
    apply retM_Some in H. injection H as -> ->.
    split; [split; auto|]. split; [split; [discriminate|intros [[Hd|Hd] _]; [congruence|lia]]|].
    split; [auto|]. intros rs Hrs; discriminate. }
  assert (Ht : disableSessionTimer s = true \/ 0 < sessionTimer).
  { destruct (disableSessionTimer s); [auto|right]. simpl in Et. apply Z.leb_gt in Et. lia. }
  assert (Hnot : ~ (disableSessionTimer s = false /\ sessionTimer <= 0)) by (intros [Hd Hs]; destruct Ht as [Ht|Ht]; [congruence|lia]).
  destruct (List.filter (activeModes s) modeKeys) as [|m0 ms] eqn:Ef.
  { apply retM_Some in H. injection H as -> ->.
    split; [split; [discriminate|intros Hc; contradiction]|].
    split; [split; [intros _; split; [exact Ht|]|intros _; reflexivity]|].
    - intros m. destruct (activeModes s m) eqn:Em; [exfalso|reflexivity].
      assert (Hin : In m (List.filter (activeModes s) modeKeys))
        by (apply filter_In; split; [destruct m; simpl; tauto|exact Em]).
      rewrite Ef in Hin. exact Hin.
    - split; [auto|]. intros rs Hrs; discriminate. }
  peel_as H k Hk.
  assert (Hsel : activeModes s (nth k (m0 :: ms) LINEAR) = true).
  { apply rand_below_range in Hk; [|simpl; lia].
    assert (Hin : In (nth k (m0 :: ms) LINEAR) (List.filter (activeModes s) modeKeys))
      by (rewrite Ef; apply nth_In; exact Hk).
    apply filter_In in Hin. apply Hin. }
  peel_as H cc Hcc. destruct cc as [cm ch]. peel_as H nt Hnt. peel_as H r Hr. peel_as H yr Hyr.
  assert (Hst : exists rs, o = Started rs /\ currentRoundMode rs = nth k (m0 :: ms) LINEAR).
  { destruct (blindMode s || ch).
    - apply retM_Some in H. injection H as -> _. eexists; split; reflexivity.
    - destruct (enableInterference s).
      + peel_as H mods' Hm'. apply retM_Some in H. injection H as -> _. eexists; split; reflexivity.
      + apply retM_Some in H. injection H as -> _. eexists; split; reflexivity. }
  destruct Hst as (rs0 & -> & Hmode).
  split; [split; [discriminate|intros Hc; contradiction]|].
  split; [split; [discriminate|intros [_ Hall]; rewrite Hall in Hsel; discriminate]|].
  split; [intros [Hc|Hc]; discriminate|].
  intros rs Hrs. injection Hrs as <-. rewrite Hmode. exact Hsel.
Qed.

(** X12: in a started round, the TRANSFORM, KEY_CHANGE and INTERFERENCE
    modifiers are shown exactly when the round is a night round, the
    cipher key changed, and the interference phase comes next. A night
    round needs the transformation setting; a key change needs the cipher
    setting, an answered question and a key already in place, and it
    always opens with the premises to memorise. With the cipher on, the
    round always has a key. The question comes at once exactly when blind
    mode, a key change and interference are all off. *)
Theorem startRound_round_flags array_sort generateSymbols s sessionTimer cipher qa ds rs ds' :
  startRound array_sort generateSymbols s sessionTimer cipher qa ds = Some (Started rs, ds') ->
  str_mem "TRANSFORM" (activeModifiers rs) = contextIsNight rs /\
  str_mem "KEY_CHANGE" (activeModifiers rs) = cipherHasChanged rs /\
  (str_mem "INTERFERENCE" (activeModifiers rs) = true <-> phase rs = INTERFERENCE) /\
  (contextIsNight rs = true -> enableTransformation s = true) /\
  (cipherHasChanged rs = true ->
     enableCipher s = true /\ 0 < qa /\ cipher <> ∅ /\ phase rs = PREMISE_MEMORIZE) /\
  (enableCipher s = true -> currentCipherMap rs <> ∅) /\
  (phase rs = QUESTION <->
     blindMode s = false /\ cipherHasChanged rs = false /\ enableInterference s = false).
Proof.
  intros H. unfold startRound in H.
  destruct (negb (disableSessionTimer s) && (sessionTimer <=? 0));
    [apply retM_Some in H; discriminate|].
  destruct (List.filter (activeModes s) modeKeys) as [|m0 ms];
    [apply retM_Some in H; discriminate|].
  peel_as H k Hk. peel_as H cc Hcc. destruct cc as [cm ch].
  assert (Hch : ch = true -> enableCipher s = true /\ 0 < qa /\ cipher <> ∅).
  { intros ->. destruct (enableCipher s); simpl in Hcc.
    - destruct (bool_decide (cipher = ∅)) eqn:Ee.
      + peel_as Hcc m Hm. apply retM_Some in Hcc. discriminate.
      + apply bool_decide_eq_false in Ee. destruct (0 <? qa) eqn:Eq; [|apply retM_Some in Hcc; discriminate].
        apply Z.ltb_lt in Eq. auto.
    - apply retM_Some in Hcc. discriminate. }
  assert (Hcm : enableCipher s = true -> cm <> ∅).
  { intros Ec. rewrite Ec in Hcc. simpl in Hcc.
    destruct (bool_decide (cipher = ∅)) eqn:Ee.
    - peel_as Hcc m Hm. apply retM_Some in Hcc. injection Hcc as -> _ _.
      eapply generateCipherKey_nonempty. exact Hm.
    - apply bool_decide_eq_false in Ee. destruct (0 <? qa).
      + peel_as Hcc low Hlow. destruct low.
        * peel_as Hcc m Hm. apply retM_Some in Hcc. injection Hcc as -> _ _.
          eapply generateCipherKey_nonempty. exact Hm.
        * apply retM_Some in Hcc. injection Hcc as -> _ _. exact Ee.
      + apply retM_Some in Hcc. injection Hcc as -> _ _. exact Ee. }
  peel_as H nt Hnt.
  assert (Hn : nt = true -> enableTransformation s = true).
  { intros ->. destruct (enableTransformation s); [reflexivity|].
    apply retM_Some in Hnt. discriminate. }
  peel_as H r Hr. peel_as H yr Hyr.
  destruct (generateLogic_mods _ _ _ _ _ _ _ _ _ Hr) as [Hmods|[Hmods|Hmods]];
    rewrite Hmods in H;
    destruct (blindMode s) eqn:Eb, ch, (enableInterference s) eqn:Ei, nt; simpl in H;
    try (peel_as H mods' Hm'; unfold startInterference in Hm'; peel_as Hm' tg Htg;
         apply retM_Some in Hm'; injection Hm' as -> _);
    apply retM_Some in H; injection H as -> _; simpl;
    (split; [reflexivity|]); (split; [reflexivity|]);
    (split; [split; intros; first [reflexivity|discriminate]|]);
    (split; [exact Hn|]);
    (split; [intros Hc; destruct (Hch Hc) as (? & ? & ?); repeat split; first [assumption|discriminate|reflexivity]|]);
    (split; [exact Hcm|]);
    split; intros; first [reflexivity | discriminate | (repeat split; assumption)
                          | (destruct H as (? & ? & ?); discriminate)].
Qed.

(** X13: each answer control sends the answer its label shows: a button
    passes [true] to [handleAnswer] exactly when it reads YES, and the
    left keys (ArrowLeft, KeyD) and right keys (ArrowRight, KeyJ) answer,
    only in the QUESTION phase, as the button on their side; other keys
    and other phases send no answer. *)
Theorem answer_controls_match_labels (isYesRight : bool) (ph : GamePhase) (code : string) :
  (forall side, button_answer isYesRight side = String.eqb (button_label isYesRight side) "YES") /\
  answer_keys ph isYesRight code =
    (if (match ph with QUESTION => true | _ => false end) then
       if String.eqb code "ArrowLeft" || String.eqb code "KeyD" then [button_answer isYesRight LeftSide]
       else if String.eqb code "ArrowRight" || String.eqb code "KeyJ" then [button_answer isYesRight RightSide]
       else []
     else []).
Proof.
  split; [intros []; destruct isYesRight; reflexivity|].
  destruct ph; try reflexivity. simpl.
  destruct (String.eqb code "ArrowLeft") eqn:E1; [apply String.eqb_eq in E1; subst code; reflexivity|].
  destruct (String.eqb code "KeyD") eqn:E2; [apply String.eqb_eq in E2; subst code; reflexivity|].
  simpl. destruct (String.eqb code "ArrowRight" || String.eqb code "KeyJ"); reflexivity.
Qed.

Lemma session_tally_invariants_witness :
  let g := play true (startSession_game 2) [(Some true, true); (None, false); (Some true, false)] in
  0 <= currentScore g /\ questionsAttempted g = Z.of_nat (length [(Some true, true); (None, false); (Some true, false)]) /\
  length (sessionLog g) = length [(Some true, true); (None, false); (Some true, false)] /\
  2 <= maxDepthReached g /\ depth (streaks g) <= maxDepthReached g.
Proof. exact (session_tally_invariants true 2 _ ltac:(lia)). Defined.

Lemma formatTime_mm_ss_witness :
  formatTime 125 = "02:05" /\
  formatTime 125 = String (digit (125 / 60 / 10)) (String (digit (125 / 60 mod 10))
                   (String ":" (String (digit (125 mod 60 / 10)) (String (digit (125 mod 60 mod 10)) EmptyString)))).
Proof. split; [vm_compute; reflexivity|]. exact (formatTime_mm_ss 125 ltac:(lia)). Defined.

(** Draws cycling through the five fifths of [0, 1). *)
Definition round_draws : list Z := map (fun k => draw_for (Z.of_nat (k mod 5)) 5) (seq 0 80).

(** Settings with the cipher and the transformation on. *)
Definition settings_cipher_night : GameSettings :=
  mkSettings (fun _ => true) 2 true true 15 5 false false EMOJI false true false true false.

Lemma startRound_outcome_witness :
  exists o ds', startRound insertion_sort plain_symbols settings_cipher_night 300 ∅ 0 round_draws
                  = Some (o, ds') /\
  ((o = EndSession <-> disableSessionTimer settings_cipher_night = false /\ 300 <= 0) /\
   (o = NoModule <-> (disableSessionTimer settings_cipher_night = true \/ 0 < 300) /\
                     forall m, activeModes settings_cipher_night m = false) /\
   (o = EndSession \/ o = NoModule -> ds' = round_draws) /\
   (forall rs, o = Started rs -> activeModes settings_cipher_night (currentRoundMode rs) = true)).
Proof.
  destruct (startRound insertion_sort plain_symbols settings_cipher_night 300 ∅ 0 round_draws)
    as [[o ds']|] eqn:E; [|vm_compute in E; discriminate].
  exists o, ds'. split; [reflexivity|]. exact (startRound_outcome _ _ _ _ _ _ _ _ _ E).
Defined.

Lemma startRound_round_flags_witness :
  exists rs ds', startRound insertion_sort plain_symbols settings_cipher_night 300 ∅ 0 round_draws
                   = Some (Started rs, ds') /\
  str_mem "TRANSFORM" (activeModifiers rs) = contextIsNight rs /\
  str_mem "KEY_CHANGE" (activeModifiers rs) = cipherHasChanged rs /\
  (str_mem "INTERFERENCE" (activeModifiers rs) = true <-> phase rs = INTERFERENCE) /\
  (contextIsNight rs = true -> enableTransformation settings_cipher_night = true) /\
  (cipherHasChanged rs = true ->
     enableCipher settings_cipher_night = true /\ 0 < 0 /\ (∅ : gmap string (option string)) <> ∅ /\
     phase rs = PREMISE_MEMORIZE) /\
  (enableCipher settings_cipher_night = true -> currentCipherMap rs <> ∅) /\
  (phase rs = QUESTION <->
     blindMode settings_cipher_night = false /\ cipherHasChanged rs = false /\
     enableInterference settings_cipher_night = false).
Proof.
  destruct (startRound insertion_sort plain_symbols settings_cipher_night 300 ∅ 0 round_draws)
    as [[[| |rs] ds']|] eqn:E; try (vm_compute in E; discriminate).
  exists rs, ds'. split; [reflexivity|]. exact (startRound_round_flags _ _ _ _ _ _ _ _ _ E).
Defined.
